(** * A fixed-window rate limiter with a block list

    Shallow embedding of the Go package [ratelimiter] (the decision engine
    [RateLimiter], the [Storage] interface and its two implementations:
    [RedisStorage], used in production, and [InMemoryStorage], used by the
    integration tests), of the configuration loader [config] and of the
    HTTP middleware [middleware], followed by their properties.

    Conventions of the embedding.
    - Go's [int] and [int64] are 64-bit two's complement integers; they are
      carried by [Z], and every arithmetic operation of the source that can
      leave the range is followed by [wrap64].
    - [time.Duration] is a number of nanoseconds and [time.Time] an instant
      in nanoseconds, both carried by [Z]; [t.Add(d)] is [t + d].  One call
      of the engine is instantaneous: the clock reading [now] is an argument
      shared by [time.Now()] and by the store.
    - A method with a pointer receiver on a mutable object becomes a function
      from the object's state to a result and a new state.
    - A Go result [(v, err)] is the pair of [v] and an [option error], where
      [None] is [nil].  The [context.Context] argument carries nothing the
      engine reads and is left out. *)

From Stdlib Require Import ZArith Lia Ascii String.
From stdpp Require Import base option list gmap strings pretty.

Local Open Scope Z_scope.
Local Open Scope string_scope.

(** ** Machine integers, time *)

Definition min_int64 : Z := - 2 ^ 63.
Definition max_int64 : Z := 2 ^ 63 - 1.

Definition in_int64 (z : Z) : Prop := min_int64 <= z <= max_int64.

(** Reduction of an integer to the 64-bit signed range. *)
Definition wrap64 (z : Z) : Z := (z + 2 ^ 63) mod 2 ^ 64 - 2 ^ 63.

Abbreviation Duration := Z.
Abbreviation Time := Z.

Definition Millisecond : Duration := 1000000.
Definition Second : Duration := 1000000000.

(** [t.Add(d)] *)
Definition Add (t : Time) (d : Duration) : Time := t + d.

(** ** Errors *)

(** A Go [error] value: either created from a message, or wrapping a cause
    under a message prefix, as [fmt.Errorf] with the verb [%w] does. *)
Inductive error : Type :=
  | ErrNew (msg : string)
  | ErrWrap (msg : string) (cause : error).

Definition Errorf (msg : string) (cause : error) : error := ErrWrap msg cause.

(** ** The storage interface *)

(** [Storage] of storage.go.  [St] is the state of the object behind the
    interface; every method receives the clock reading and returns the new
    state next to its Go result. *)
Class Storage (St : Type) : Type := {
  Increment : Time -> string -> Duration -> St -> (Z * option error) * St;
  Get : Time -> string -> St -> (Z * option error) * St;
  SetBlock : Time -> string -> Duration -> St -> option error * St;
  IsBlocked : Time -> string -> St -> (bool * option error) * St;
  Close : St -> option error * St
}.

(** ** The decision engine (rate_limiter.go) *)

Record RateLimiter : Type := mkRateLimiter {
  defaultIPLimit : Z;
  defaultTokenLimit : Z;
  blockDuration : Duration;
  tokenLimits : gmap string Z
}.

Record LimitResult : Type := mkLimitResult {
  Allowed : bool;
  Remaining : Z;
  ResetTime : Time;
  Blocked : bool
}.

Record Config : Type := mkConfig {
  DefaultIPLimit : Z;
  DefaultTokenLimit : Z;
  BlockDuration : Duration;
  TokenLimits : gmap string Z
}.

Definition New (config : Config) : RateLimiter :=
  {| defaultIPLimit := DefaultIPLimit config;
     defaultTokenLimit := DefaultTokenLimit config;
     blockDuration := BlockDuration config;
     tokenLimits := TokenLimits config |}.

(** [getKeyAndLimit]: token limits have priority over IP limits. *)
Definition getKeyAndLimit (rl : RateLimiter) (ip token : string) : string * Z :=
  if bool_decide (token ≠ "") then
    match tokenLimits rl !! token with
    | Some limit => ("token:" +:+ token, limit)
    | None => ("token:" +:+ token, defaultTokenLimit rl)
    end
  else ("ip:" +:+ ip, defaultIPLimit rl).

(** [CheckLimit].  The result is the Go pair of a nullable pointer to a
    [LimitResult] and an error. *)
Definition CheckLimit {St : Type} `{!Storage St} (rl : RateLimiter)
    (now : Time) (ip token : string) (s : St)
    : (option LimitResult * option error) * St :=
  let '(key, limit) := getKeyAndLimit rl ip token in
  let '((blocked, err), s) := IsBlocked now key s in
  match err with
  | Some e => ((None, Some (Errorf "failed to check block status: " e)), s)
  | None =>
    if blocked then
      ((Some {| Allowed := false; Remaining := 0;
                ResetTime := Add now (blockDuration rl); Blocked := true |},
        None), s)
    else
      let '((count, err), s) := Increment now key Second s in
      match err with
      | Some e => ((None, Some (Errorf "failed to increment counter: " e)), s)
      | None =>
        if bool_decide (count > limit) then
          let '(err, s) := SetBlock now key (blockDuration rl) s in
          match err with
          | Some e => ((None, Some (Errorf "failed to set block: " e)), s)
          | None =>
            ((Some {| Allowed := false; Remaining := 0;
                      ResetTime := Add now (blockDuration rl); Blocked := true |},
              None), s)
          end
        else
          let remaining := wrap64 (limit - count) in
          let remaining := if bool_decide (remaining < 0) then 0 else remaining in
          ((Some {| Allowed := true; Remaining := remaining;
                    ResetTime := Add now Second; Blocked := false |},
            None), s)
      end
  end.

(** [RateLimiter.Close] *)
Definition CloseLimiter {St : Type} `{!Storage St} (s : St) : option error * St :=
  Close s.

(** A run of sequential calls for one identity, one call per clock reading
    of [times]; the results are listed in the order of the calls. *)
Fixpoint CheckLimitSeq {St : Type} `{!Storage St} (rl : RateLimiter)
    (ip token : string) (times : list Time) (s : St)
    : list (option LimitResult * option error) * St :=
  match times with
  | [] => ([], s)
  | now :: rest =>
    let '(r, s) := CheckLimit rl now ip token s in
    let '(rs, s) := CheckLimitSeq rl ip token rest s in
    (r :: rs, s)
  end.

(** The clock readings of calls separated by the delays [gaps], the first
    one made at [t0]. *)
Fixpoint arrivals (t0 : Time) (gaps : list Duration) : list Time :=
  match gaps with
  | [] => [t0]
  | g :: rest => t0 :: arrivals (t0 + g) rest
  end.

(** ** A storage that records the calls it receives

    The unit tests observe the engine through a mock that records every
    call ([mock.Mock.Called]) and check the calls made.  [Recorder] does
    the recording over any storage: it forwards each call and appends it
    to a log. *)

Inductive call : Type :=
  | CallIncrement (key : string) (window : Duration)
  | CallGet (key : string)
  | CallSetBlock (key : string) (duration : Duration)
  | CallIsBlocked (key : string)
  | CallClose.

Record Recorder (St : Type) : Type := mkRecorder {
  inner : St;
  calls : list call
}.
Arguments mkRecorder {St} _ _.
Arguments inner {St} _.
Arguments calls {St} _.

Definition record {St A : Type} (c : call) (log : list call) (r : A * St)
    : A * Recorder St :=
  (r.1, mkRecorder r.2 (log ++ [c])).

#[global] Instance Recorder_Storage {St : Type} `{!Storage St} : Storage (Recorder St) := {
  Increment now key window s :=
    record (CallIncrement key window) (calls s) (Increment now key window (inner s));
  Get now key s :=
    record (CallGet key) (calls s) (Get now key (inner s));
  SetBlock now key duration s :=
    record (CallSetBlock key duration) (calls s) (SetBlock now key duration (inner s));
  IsBlocked now key s :=
    record (CallIsBlocked key) (calls s) (IsBlocked now key (inner s));
  Close s :=
    record CallClose (calls s) (Close (inner s))
}.

Definition is_SetBlock (c : call) : bool :=
  match c with CallSetBlock _ _ => true | _ => false end.

Definition is_Increment (c : call) : bool :=
  match c with CallIncrement _ _ => true | _ => false end.

(** The key a recorded call is about. *)
Definition call_key (c : call) : option string :=
  match c with
  | CallIncrement k _ | CallGet k | CallSetBlock k _ | CallIsBlocked k => Some k
  | CallClose => None
  end.

(** ** The in-memory storage of the integration tests *)

Record InMemoryStorage : Type := mkInMemoryStorage {
  counts : gmap string Z;
  blocked : gmap string Time
}.

Definition NewInMemoryStorage : InMemoryStorage :=
  {| counts := ∅; blocked := ∅ |}.

#[global] Instance InMemoryStorage_Storage : Storage InMemoryStorage := {
  Increment now key window i :=
    let c := wrap64 (default 0 (counts i !! key) + 1) in
    ((c, None), {| counts := <[key := c]> (counts i); blocked := blocked i |});
  Get now key i :=
    ((default 0 (counts i !! key), None), i);
  SetBlock now key duration i :=
    (None, {| counts := counts i; blocked := <[key := Add now duration]> (blocked i) |});
  IsBlocked now key i :=
    match blocked i !! key with
    | Some blockedUntil =>
      if bool_decide (now < blockedUntil) then ((true, None), i)
      else ((false, None), {| counts := counts i; blocked := delete key (blocked i) |})
    | None => ((false, None), i)
    end;
  Close i := (None, i)
}.

(** ** The Redis server and its client

    [RedisStorage] talks to a Redis server through the go-redis client.
    Neither is code of this package; the definitions below follow the
    documented behaviour of the five commands the package sends (INCR,
    EXPIRE, SET, EXISTS, GET) and of the client calls that send them.
    A key holds a value and, possibly, the instant at which it expires;
    an expired key is invisible to every command. *)

Inductive rvalue : Type :=
  | RInt (n : Z)
  | RStr (s : string).

Record entry : Type := mkEntry {
  val : rvalue;
  expireAt : option Time
}.

Inductive reply : Type :=
  | Integer (n : Z)
  | Status (s : string)
  | Bulk (v : rvalue)
  | Nil
  | Error (e : error).

Definition expired (now : Time) (e : entry) : bool :=
  match expireAt e with
  | Some w => bool_decide (w < now)
  | None => false
  end.

(** The entry a command sees under key [k] at instant [now]. *)
Definition live (now : Time) (k : string) (d : gmap string entry) : option entry :=
  match d !! k with
  | Some e => if expired now e then None else Some e
  | None => None
  end.

Definition digit_of (a : ascii) : option Z :=
  let n := Z.of_N (N_of_ascii a) in
  if bool_decide (48 <= n <= 57) then Some (n - 48) else None.

Fixpoint parse_digits (acc : Z) (s : string) : option Z :=
  match s with
  | EmptyString => Some acc
  | String a rest =>
    match digit_of a with
    | Some v => parse_digits (10 * acc + v) rest
    | None => None
    end
  end.

(** The 64-bit integer a stored value stands for, if any. *)
Definition int_of_rvalue (v : rvalue) : option Z :=
  match v with
  | RInt n => Some n
  | RStr s =>
    let parsed :=
      match s with
      | EmptyString => None
      | String "-" (String a rest) => Z.opp <$> parse_digits 0 (String a rest)
      | _ => parse_digits 0 s
      end in
    match parsed with
    | Some n => if bool_decide (min_int64 <= n <= max_int64) then Some n else None
    | None => None
    end
  end.

Definition INCR (now : Time) (k : string) (d : gmap string entry)
    : reply * gmap string entry :=
  match live now k d with
  | None => (Integer 1, <[k := mkEntry (RInt 1) None]> d)
  | Some e =>
    match int_of_rvalue (val e) with
    | None => (Error (ErrNew "ERR value is not an integer or out of range"), d)
    | Some n =>
      if bool_decide (n = max_int64)
      then (Error (ErrNew "ERR increment or decrement would overflow"), d)
      else (Integer (n + 1), <[k := mkEntry (RInt (n + 1)) (expireAt e)]> d)
    end
  end.

Definition EXPIRE (now : Time) (k : string) (seconds : Z) (d : gmap string entry)
    : reply * gmap string entry :=
  match live now k d with
  | None => (Integer 0, d)
  | Some e =>
    if bool_decide (seconds <= 0) then (Integer 1, delete k d)
    else (Integer 1, <[k := mkEntry (val e) (Some (now + seconds * Second))]> d)
  end.

Inductive set_option : Type :=
  | NoExpiry
  | EX (seconds : Z)
  | PX (milliseconds : Z)
  | KEEPTTL.

Definition SET (now : Time) (k : string) (v : string) (o : set_option)
    (d : gmap string entry) : reply * gmap string entry :=
  match o with
  | NoExpiry => (Status "OK", <[k := mkEntry (RStr v) None]> d)
  | EX seconds =>
    if bool_decide (seconds <= 0)
    then (Error (ErrNew "ERR invalid expire time in 'set' command"), d)
    else (Status "OK", <[k := mkEntry (RStr v) (Some (now + seconds * Second))]> d)
  | PX milliseconds =>
    if bool_decide (milliseconds <= 0)
    then (Error (ErrNew "ERR invalid expire time in 'set' command"), d)
    else (Status "OK", <[k := mkEntry (RStr v) (Some (now + milliseconds * Millisecond))]> d)
  | KEEPTTL =>
    (Status "OK", <[k := mkEntry (RStr v) (live now k d ≫= expireAt)]> d)
  end.

Definition EXISTS (now : Time) (k : string) (d : gmap string entry)
    : reply * gmap string entry :=
  (Integer (match live now k d with Some _ => 1 | None => 0 end), d).

Definition GET (now : Time) (k : string) (d : gmap string entry)
    : reply * gmap string entry :=
  match live now k d with
  | Some e => (Bulk (val e), d)
  | None => (Nil, d)
  end.

(** The client: the server's keyspace behind a connection.  [outages] says,
    for each coming round trip, whether the network loses it ([true]); a
    lost round trip reaches no command.  [closed] is set by [Close]. *)
Record Client : Type := mkClient {
  server : gmap string entry;
  outages : list bool;
  closed : bool
}.

Definition round_trip {A : Type} (c : Client)
    (cmds : gmap string entry -> A * gmap string entry) : (A + error) * Client :=
  if closed c then (inr (ErrNew "redis: client is closed"), c)
  else
    match outages c with
    | true :: rest =>
      (inr (ErrNew "i/o timeout"), mkClient (server c) rest false)
    | _ =>
      let '(a, d) := cmds (server c) in
      (inl a, mkClient d (tail (outages c)) false)
    end.

(** go-redis rounds a duration to the unit of the command it sends. *)
Definition formatSec (dur : Duration) : Z :=
  if bool_decide (0 < dur) && bool_decide (dur < Second) then 1
  else dur `quot` Second.

Definition formatMs (dur : Duration) : Z :=
  if bool_decide (0 < dur) && bool_decide (dur < Millisecond) then 1
  else dur `quot` Millisecond.

Definition usePrecise (dur : Duration) : bool :=
  bool_decide (dur < Second) || negb (bool_decide (dur `rem` Second = 0)).

Definition KeepTTL : Duration := -1.

(** The option [client.Set] sends for an expiration. *)
Definition set_args (expiration : Duration) : set_option :=
  if bool_decide (0 < expiration) then
    if usePrecise expiration then PX (formatMs expiration)
    else EX (formatSec expiration)
  else if bool_decide (expiration = KeepTTL) then KEEPTTL
  else NoExpiry.

Definition reply_err (r : reply) : option error :=
  match r with
  | Error e => Some e
  | _ => None
  end.

(** [IntCmd.Val] *)
Definition reply_int (r : reply) : Z :=
  match r with
  | Integer n => n
  | _ => 0
  end.

(** ** The Redis storage (redis_storage.go) *)

Record RedisStorage : Type := mkRedisStorage {
  client : Client
}.

(** [TxPipeline] queues commands and [Exec] sends them as one MULTI/EXEC
    transaction: one round trip, in which the server runs every queued
    command, in order, whatever the earlier ones replied.  [Exec] reports
    the first error among the replies. *)
Definition RedisIncrement (now : Time) (key : string) (window : Duration)
    (r : RedisStorage) : (Z * option error) * RedisStorage :=
  let countKey := "rate_limit:" +:+ key in
  let '(res, c) :=
    round_trip (client r) (fun d =>
      let '(incr, d) := INCR now countKey d in
      let '(expire, d) := EXPIRE now countKey (formatSec window) d in
      ((incr, expire), d)) in
  let err :=
    match res with
    | inr e => Some e
    | inl (incr, expire) =>
      match reply_err incr with
      | Some e => Some e
      | None => reply_err expire
      end
    end in
  match err with
  | Some e => ((0, Some (Errorf "failed to increment rate limit: " e)), mkRedisStorage c)
  | None =>
    ((match res with inl (incr, _) => reply_int incr | inr _ => 0 end, None),
     mkRedisStorage c)
  end.

(** The count stored under the key.  GET replies with the decimal writing of
    the stored integer, which [strconv.ParseInt] reads back; the two steps
    are taken together as [int_of_rvalue]. *)
Definition RedisGet (now : Time) (key : string) (r : RedisStorage)
    : (Z * option error) * RedisStorage :=
  let countKey := "rate_limit:" +:+ key in
  let '(res, c) := round_trip (client r) (GET now countKey) in
  match res with
  | inr e => ((0, Some (Errorf "failed to get rate limit: " e)), mkRedisStorage c)
  | inl Nil => ((0, None), mkRedisStorage c)
  | inl (Error e) => ((0, Some (Errorf "failed to get rate limit: " e)), mkRedisStorage c)
  | inl (Bulk v) =>
    match int_of_rvalue v with
    | Some count => ((count, None), mkRedisStorage c)
    | None =>
      ((0, Some (Errorf "failed to parse rate limit count: " (ErrNew "invalid syntax"))),
       mkRedisStorage c)
    end
  | inl _ => ((0, Some (Errorf "failed to get rate limit: " (ErrNew "unexpected reply"))),
              mkRedisStorage c)
  end.

Definition RedisSetBlock (now : Time) (key : string) (duration : Duration)
    (r : RedisStorage) : option error * RedisStorage :=
  let blockKey := "blocked:" +:+ key in
  let '(res, c) := round_trip (client r) (SET now blockKey "1" (set_args duration)) in
  let err :=
    match res with
    | inr e => Some e
    | inl rep => reply_err rep
    end in
  match err with
  | Some e => (Some (Errorf "failed to set block: " e), mkRedisStorage c)
  | None => (None, mkRedisStorage c)
  end.

Definition RedisIsBlocked (now : Time) (key : string) (r : RedisStorage)
    : (bool * option error) * RedisStorage :=
  let blockKey := "blocked:" +:+ key in
  let '(res, c) := round_trip (client r) (EXISTS now blockKey) in
  let err :=
    match res with
    | inr e => Some e
    | inl rep => reply_err rep
    end in
  match err with
  | Some e => ((false, Some (Errorf "failed to check block status: " e)), mkRedisStorage c)
  | None =>
    ((bool_decide (match res with inl rep => reply_int rep | inr _ => 0 end > 0), None),
     mkRedisStorage c)
  end.

Definition RedisClose (r : RedisStorage) : option error * RedisStorage :=
  if closed (client r) then (Some (ErrNew "redis: client is closed"), r)
  else (None, mkRedisStorage (mkClient (server (client r)) (outages (client r)) true)).

#[global] Instance RedisStorage_Storage : Storage RedisStorage := {
  Increment := RedisIncrement;
  Get := RedisGet;
  SetBlock := RedisSetBlock;
  IsBlocked := RedisIsBlocked;
  Close := RedisClose
}.

(** A client whose connection is open and loses no round trip. *)
Definition healthy (r : RedisStorage) : Prop :=
  closed (client r) = false ∧ outages (client r) = [].

(** The count of [key] as the server holds it at instant [now]. *)
Definition counter (now : Time) (key : string) (r : RedisStorage) : option entry :=
  live now ("rate_limit:" +:+ key) (server (client r)).

(** The block flag of [key] as the server holds it at instant [now]. *)
Definition block_flag (now : Time) (key : string) (r : RedisStorage) : option entry :=
  live now ("blocked:" +:+ key) (server (client r)).

(** A key with no count and no block at instant [now]. *)
Definition fresh (now : Time) (key : string) (r : RedisStorage) : Prop :=
  counter now key r = None ∧ block_flag now key r = None.

(** The outcome the specification gives to the [i]-th call, made at [t], of
    a run of calls on a key with limit [L] that was fresh at the first one:
    allowed with [L - i] left while [i <= L], then rejected and blocked. *)
Definition nth_outcome (rl : RateLimiter) (L : Z) (i : Z) (t : Time)
    : option LimitResult * option error :=
  if bool_decide (i <= L) then
    (Some {| Allowed := true; Remaining := L - i;
             ResetTime := t + Second; Blocked := false |}, None)
  else
    (Some {| Allowed := false; Remaining := 0;
             ResetTime := t + blockDuration rl; Blocked := true |}, None).

Fixpoint outcomes_from (rl : RateLimiter) (L : Z) (i : Z) (times : list Time)
    : list (option LimitResult * option error) :=
  match times with
  | [] => []
  | t :: rest => nth_outcome rl L i t :: outcomes_from rl L (i + 1) rest
  end.

(** The count the server holds for [key] at instant [now] is [n]; no live
    counter stands for zero. *)
Definition holds_count (now : Time) (key : string) (r : RedisStorage) (n : Z) : Prop :=
  match counter now key r with
  | None => n = 0
  | Some e => val e = RInt n
  end.

(** The storage [r] with the server's keyspace replaced by [d]. *)
Definition set_server (d : gmap string entry) (r : RedisStorage) : RedisStorage :=
  mkRedisStorage (mkClient d (outages (client r)) (closed (client r))).

(** The calls one [CheckLimit] makes on a key that is not blocked, when the
    post-increment count is [count]. *)
Definition calls_of_check (rl : RateLimiter) (key : string) (limit count : Z) : list call :=
  [CallIsBlocked key; CallIncrement key Second] ++
  (if bool_decide (count > limit) then [CallSetBlock key (blockDuration rl)] else []).

(** The state of the connection of a Redis storage. *)
Definition conn (r : RedisStorage) : bool * list bool :=
  (closed (client r), outages (client r)).

(** Two Redis storages that a check of [key] at instant [now] cannot tell
    apart: same connection state, same count and same block flag for
    [key]; what they hold for other keys is free. *)
Definition same_view (now : Time) (key : string) (r r' : RedisStorage) : Prop :=
  conn r = conn r' ∧ counter now key r = counter now key r'
  ∧ block_flag now key r = block_flag now key r'.

(** ** Configurations of the scenarios

    The policy of the scenarios of the specification (three requests per
    address, a hundred per token, fifty for the token abc123, blocks of ten
    seconds), the policy of the integration tests, a policy whose limits
    are zero, and three Redis storages: an empty one, one on which the third
    round trip is lost, and one where the address A is blocked until
    instant 100. *)

Definition integration_policy : RateLimiter :=
  New {| DefaultIPLimit := 3; DefaultTokenLimit := 5;
         BlockDuration := 10 * Second; TokenLimits := {["test_token" := 2]} |}.

(** What a scenario looks at in the results of a run: for each call,
    whether it was allowed, the remaining quota and whether the key was
    blocked; [None] stands for a call that returned an error. *)
Definition decisions (outs : list (option LimitResult * option error))
    : list (option (bool * Z * bool)) :=
  map (λ out, (λ res, (Allowed res, Remaining res, Blocked res)) <$> out.1) outs.

Definition test_policy : RateLimiter :=
  New {| DefaultIPLimit := 3; DefaultTokenLimit := 100;
         BlockDuration := 10 * Second; TokenLimits := {["abc123" := 50]} |}.

Definition zero_policy : RateLimiter :=
  New {| DefaultIPLimit := 0; DefaultTokenLimit := 0;
         BlockDuration := 10 * Second; TokenLimits := ∅ |}.

Definition empty_redis : RedisStorage :=
  mkRedisStorage (mkClient ∅ [] false).

Definition flaky_redis : RedisStorage :=
  mkRedisStorage (mkClient ∅ [false; false; true] false).

Definition blocked_redis : RedisStorage :=
  mkRedisStorage (mkClient {["blocked:ip:A" := mkEntry (RStr "1") (Some 100)]} [] false).

(** ** More of the Redis storage *)

(** The time to live the server receives from [client.Set] for a positive
    expiration: whole milliseconds when the expiration is below a second or
    not a whole number of seconds, whole seconds otherwise. *)
Definition set_ttl (expiration : Duration) : Duration :=
  if usePrecise expiration then formatMs expiration * Millisecond
  else formatSec expiration * Second.

(** ** Strings, numbers and the environment, as Go's library has them

    The functions of [strings], [strconv] and [os] that config.go calls.
    They are not code of this repository; each follows the library's own
    definition.  [s[n:]] is [str_drop n s] and [s[:n]] is [str_take n s]. *)

Fixpoint str_drop (n : nat) (s : string) : string :=
  match n, s with
  | O, _ => s
  | S n, String _ rest => str_drop n rest
  | S _, EmptyString => EmptyString
  end.

Fixpoint str_take (n : nat) (s : string) : string :=
  match n, s with
  | O, _ => EmptyString
  | S n, String c rest => String c (str_take n rest)
  | S _, EmptyString => EmptyString
  end.

Definition HasPrefix (s prefix : string) : bool :=
  bool_decide (String.length prefix ≤ String.length s)%nat
  && bool_decide (str_take (String.length prefix) s = prefix).

Definition HasSuffix (s suffix : string) : bool :=
  bool_decide (String.length suffix ≤ String.length s)%nat
  && bool_decide (str_drop (String.length s - String.length suffix) s = suffix).

Definition TrimPrefix (s prefix : string) : string :=
  if HasPrefix s prefix then str_drop (String.length prefix) s else s.

Definition TrimSuffix (s suffix : string) : string :=
  if HasSuffix s suffix then str_take (String.length s - String.length suffix) s else s.

(** The text before and the text after the first occurrence of the
    character [c], if there is one. *)
Fixpoint cut_at (c : ascii) (s : string) : option (string * string) :=
  match s with
  | EmptyString => None
  | String a rest =>
    if bool_decide (a = c) then Some (EmptyString, rest)
    else match cut_at c rest with
         | Some (before, after) => Some (String a before, after)
         | None => None
         end
  end.

(** [strings.SplitN(s, "=", 2)] *)
Definition SplitN_eq_2 (s : string) : list string :=
  match cut_at "=" s with
  | Some (before, after) => [before; after]
  | None => [s]
  end.

(** The scan of [strconv.ParseUint] in base 10 on 64 bits: it stops at the
    first character that is not a digit, or as soon as the number no longer
    fits, whichever comes first. *)
Inductive scan : Type :=
  | ScanOk (n : Z)
  | ScanSyntax
  | ScanRange.

Fixpoint parse_uint (n : Z) (s : string) : scan :=
  match s with
  | EmptyString => ScanOk n
  | String c rest =>
    match digit_of c with
    | None => ScanSyntax
    | Some d =>
      if bool_decide ((2 ^ 64 - 1) `div` 10 + 1 <= n) then ScanRange
      else
        let n1 := n * 10 + d in
        if bool_decide (2 ^ 64 - 1 < n1) then ScanRange else parse_uint n1 rest
    end
  end.

Definition ErrSyntax : error := ErrNew "invalid syntax".
Definition ErrRange : error := ErrNew "value out of range".

(** [strconv.Atoi]: an optional sign and decimal digits.  On a syntax error
    the value is 0; on a range error it is the nearest bound. *)
Definition Atoi (s : string) : Z * option error :=
  match s with
  | EmptyString => (0, Some ErrSyntax)
  | String c rest =>
    let neg := bool_decide (c = "-"%char) in
    let digits := if bool_decide (c = "+"%char ∨ c = "-"%char) then rest else s in
    match digits with
    | EmptyString => (0, Some ErrSyntax)
    | _ =>
      match parse_uint 0 digits with
      | ScanSyntax => (0, Some ErrSyntax)
      | ScanRange => (if neg then min_int64 else max_int64, Some ErrRange)
      | ScanOk un =>
        if negb neg && bool_decide (2 ^ 63 <= un) then (max_int64, Some ErrRange)
        else if neg && bool_decide (2 ^ 63 < un) then (min_int64, Some ErrRange)
        else (if neg then - un else un, None)
      end
    end
  end.

(** The environment of the process is the list [os.Environ] returns, of
    entries of the form key=value.  [os.Getenv] gives the value of the
    first entry of the key, and the empty string when there is none. *)
Fixpoint Getenv (environ : list string) (key : string) : string :=
  match environ with
  | [] => EmptyString
  | e :: rest =>
    match cut_at "=" e with
    | Some (k, v) => if bool_decide (k = key) then v else Getenv rest key
    | None => Getenv rest key
    end
  end.

(** ** Configuration (config.go)

    [Load] reads the environment as it is once [godotenv.Load] has added
    the variables of the .env file to it. *)
Module config.

Record RedisConfig : Type := mkRedisConfig {
  Host : string;
  Port : string;
  Password : string;
  DB : Z
}.

(** [ServerPort] is the field [Port] of [ServerConfig]; [RedisConfig] has
    taken the name. *)
Record ServerConfig : Type := mkServerConfig {
  ServerPort : string
}.

Record RateLimitConfig : Type := mkRateLimitConfig {
  DefaultIPLimit : Z;
  DefaultTokenLimit : Z;
  BlockDuration : Duration
}.

Record Config : Type := mkConfig {
  Redis : RedisConfig;
  Server : ServerConfig;
  RateLimit : RateLimitConfig;
  Tokens : gmap string Z
}.

Definition getEnv (environ : list string) (key defaultValue : string) : string :=
  let value := Getenv environ key in
  if bool_decide (value ≠ "") then value else defaultValue.

(** One turn of the loop of [loadTokenConfig]: the token name and the limit
    the entry registers, if it registers one. *)
Definition token_of_entry (env : string) : option (string * Z) :=
  match SplitN_eq_2 env with
  | [key; value] =>
    if HasPrefix key "TOKEN_" && HasSuffix key "_LIMIT" then
      let tokenName := TrimSuffix (TrimPrefix key "TOKEN_") "_LIMIT" in
      match Atoi value with
      | (limit, None) => Some (tokenName, limit)
      | (_, Some _) => None
      end
    else None
  | _ => None
  end.

Definition loadTokenConfig (environ : list string) : gmap string Z :=
  foldl (λ tokens env,
           match token_of_entry env with
           | Some (tokenName, limit) => <[tokenName := limit]> tokens
           | None => tokens
           end) ∅ environ.

Definition Load (environ : list string) : option Config * option error :=
  let redisDB := (Atoi (getEnv environ "REDIS_DB" "0")).1 in
  let defaultIPLimit := (Atoi (getEnv environ "DEFAULT_IP_LIMIT" "10")).1 in
  let defaultTokenLimit := (Atoi (getEnv environ "DEFAULT_TOKEN_LIMIT" "100")).1 in
  let blockDurationSeconds := (Atoi (getEnv environ "BLOCK_DURATION_SECONDS" "300")).1 in
  let cfg :=
    {| Redis := {| Host := getEnv environ "REDIS_HOST" "localhost";
                   Port := getEnv environ "REDIS_PORT" "6379";
                   Password := getEnv environ "REDIS_PASSWORD" "";
                   DB := redisDB |};
       Server := {| ServerPort := getEnv environ "SERVER_PORT" "8080" |};
       RateLimit := {| DefaultIPLimit := defaultIPLimit;
                       DefaultTokenLimit := defaultTokenLimit;
                       BlockDuration := wrap64 (blockDurationSeconds * Second) |};
       Tokens := loadTokenConfig environ |} in
  (Some cfg, None).

End config.

(** ** The HTTP middleware (internal/middleware/rate_limiter.go)

    Of a [gin.Context] the middleware reads the headers and the remote
    address of the request, and it writes a status with a JSON object,
    response headers, and whether the chain of handlers is aborted or
    continued.  [net.ParseIP] followed by [String], [net.SplitHostPort]
    and [Time.Format] belong to Go's library and are taken as parameters.
    [strconv.Itoa] is the decimal writing [pretty]. *)
Module middleware.

Record Request : Type := mkRequest {
  Header : gmap string string;
  RemoteAddr : string
}.

Record Context : Type := mkContext {
  request : Request;
  status : option Z;
  body : list (string * string);
  headers : gmap string string;
  aborted : bool;
  continued : bool
}.

Definition StatusTooManyRequests : Z := 429.
Definition StatusInternalServerError : Z := 500.

(** [c.GetHeader(key)]: the empty string when the request has no such
    header. *)
Definition GetHeader (c : Context) (key : string) : string :=
  default "" (Header (request c) !! key).

(** [c.Header(key, value)]: an empty value removes the header. *)
Definition SetHeader (key value : string) (c : Context) : Context :=
  mkContext (request c) (status c) (body c)
    (if bool_decide (value = "") then delete key (headers c)
     else <[key := value]> (headers c))
    (aborted c) (continued c).

(** [c.JSON(code, obj)] *)
Definition JSON (code : Z) (obj : list (string * string)) (c : Context) : Context :=
  mkContext (request c) (Some code) obj (headers c) (aborted c) (continued c).

(** [c.Abort()] *)
Definition Abort (c : Context) : Context :=
  mkContext (request c) (status c) (body c) (headers c) true (continued c).

(** [c.Next()]: the handlers that follow are out of the model; the context
    records that they were given the request. *)
Definition Next (c : Context) : Context :=
  mkContext (request c) (status c) (body c) (headers c) (aborted c) true.

Definition Itoa (n : Z) : string := pretty n.

(** How a handler ends: it returns, or it panics on a nil pointer. *)
Inductive ending (St : Type) : Type :=
  | Returned (c : Context) (s : St)
  | Panicked (c : Context) (s : St).
Arguments Returned {St} _ _.
Arguments Panicked {St} _ _.

Section Handler.
(** The text of the address [net.ParseIP] reads in a string, if it reads
    one. *)
Variable ParseIP : string → option string.
Variable SplitHostPort : string → string * string * option error.
Variable Format : Time → string → string.

Definition getClientIP (c : Context) : string :=
  let fromRemoteAddr :=
    let '(ip, _, err) := SplitHostPort (RemoteAddr (request c)) in
    match err with
    | Some _ => RemoteAddr (request c)
    | None => ip
    end in
  let fromRealIP :=
    let xri := GetHeader c "X-Real-IP" in
    if bool_decide (xri ≠ "") then
      match ParseIP xri with
      | Some ip => ip
      | None => fromRemoteAddr
      end
    else fromRemoteAddr in
  let xff := GetHeader c "X-Forwarded-For" in
  if bool_decide (xff ≠ "") then
    match ParseIP xff with
    | Some ip => ip
    | None => fromRealIP
    end
  else fromRealIP.

(** The handler [RateLimiterMiddleware] returns, run on one request. *)
Definition RateLimiterMiddleware {St : Type} `{!Storage St} (limiter : RateLimiter)
    (now : Time) (c : Context) (s : St) : ending St :=
  let ip := getClientIP c in
  let token := GetHeader c "API_KEY" in
  let '((result, err), s) := CheckLimit limiter now ip token s in
  match err with
  | Some _ =>
    Returned (Abort (JSON StatusInternalServerError
                       [("error", "Internal server error")] c)) s
  | None =>
    match result with
    | None => Panicked c s
    | Some result =>
      let c := SetHeader "X-RateLimit-Remaining" (Itoa (Remaining result)) c in
      let c := SetHeader "X-RateLimit-Reset"
                 (Format (ResetTime result) "2006-01-02T15:04:05Z") c in
      if negb (Allowed result) then
        Returned (Abort (JSON StatusTooManyRequests
                           [("error", "you have reached the maximum number of requests or actions allowed within a certain time frame")]
                           c)) s
      else Returned (Next c) s
    end
  end.
End Handler.

(** The context gin hands to the first handler of a request. *)
Definition NewContext (req : Request) : Context :=
  mkContext req None [] ∅ false false.

End middleware.

(** * Properties *)

(** ** Arithmetic and strings *)

Lemma wrap64_in_range (z : Z) : in_int64 z → wrap64 z = z.
Proof.
  unfold in_int64, min_int64, max_int64, wrap64. intros Hz.
  rewrite Z.mod_small; lia.
Qed.

Lemma wrap64_is_int64 (z : Z) : in_int64 (wrap64 z).
Proof.
  unfold in_int64, min_int64, max_int64, wrap64.
  pose proof (Z.mod_pos_bound (z + 2 ^ 63) (2 ^ 64)). lia.
Qed.

Lemma ip_key_not_token_key (ip token : string) :
  "ip:" +:+ ip ≠ "token:" +:+ token.
Proof. discriminate. Qed.

Lemma prefix_inj (p a b : string) : p +:+ a = p +:+ b → a = b.
Proof.
  induction p as [|c p IH]; simpl; [done|].
  intros H. injection H as H. by apply IH.
Qed.

Lemma count_key_not_block_key (a b : string) :
  "rate_limit:" +:+ a ≠ "blocked:" +:+ b.
Proof. discriminate. Qed.

(** ** Key and limit resolution *)

Lemma getKeyAndLimit_token (rl : RateLimiter) (ip token : string) :
  token ≠ "" →
  getKeyAndLimit rl ip token =
    ("token:" +:+ token, default (defaultTokenLimit rl) (tokenLimits rl !! token)).
Proof.
  intros Ht. unfold getKeyAndLimit.
  rewrite bool_decide_eq_true_2 by done.
  by destruct (tokenLimits rl !! token).
Qed.

Lemma getKeyAndLimit_ip (rl : RateLimiter) (ip : string) :
  getKeyAndLimit rl ip "" = ("ip:" +:+ ip, defaultIPLimit rl).
Proof. reflexivity. Qed.

Lemma getKeyAndLimit_key (rl : RateLimiter) (ip token : string) :
  (getKeyAndLimit rl ip token).1 =
    if bool_decide (token ≠ "") then "token:" +:+ token else "ip:" +:+ ip.
Proof.
  unfold getKeyAndLimit. case_bool_decide; [|done].
  by destruct (tokenLimits rl !! token).
Qed.

(** ** The paths of [CheckLimit], over any storage *)

Section Paths.
Context {St : Type} `{!Storage St}.
Variable rl : RateLimiter.
Variables (now : Time) (ip token key : string) (limit : Z).
Hypothesis Hkey : getKeyAndLimit rl ip token = (key, limit).

Lemma path_IsBlocked_fails (s s1 : St) (b : bool) (e : error) :
  IsBlocked now key s = ((b, Some e), s1) →
  CheckLimit rl now ip token s =
    ((None, Some (Errorf "failed to check block status: " e)), s1).
Proof. intros H1. unfold CheckLimit. by rewrite Hkey, H1. Qed.

Lemma path_blocked (s s1 : St) :
  IsBlocked now key s = ((true, None), s1) →
  CheckLimit rl now ip token s =
    ((Some {| Allowed := false; Remaining := 0;
              ResetTime := now + blockDuration rl; Blocked := true |}, None), s1).
Proof. intros H1. unfold CheckLimit. by rewrite Hkey, H1. Qed.

Lemma path_Increment_fails (s s1 s2 : St) (count : Z) (e : error) :
  IsBlocked now key s = ((false, None), s1) →
  Increment now key Second s1 = ((count, Some e), s2) →
  CheckLimit rl now ip token s =
    ((None, Some (Errorf "failed to increment counter: " e)), s2).
Proof. intros H1 H2. unfold CheckLimit. by rewrite Hkey, H1, H2. Qed.

Lemma path_SetBlock_fails (s s1 s2 s3 : St) (count : Z) (e : error) :
  IsBlocked now key s = ((false, None), s1) →
  Increment now key Second s1 = ((count, None), s2) →
  count > limit →
  SetBlock now key (blockDuration rl) s2 = (Some e, s3) →
  CheckLimit rl now ip token s =
    ((None, Some (Errorf "failed to set block: " e)), s3).
Proof.
  intros H1 H2 Hgt H3. unfold CheckLimit. rewrite Hkey, H1, H2.
  rewrite bool_decide_eq_true_2 by done. by rewrite H3.
Qed.

Lemma path_exceeded (s s1 s2 s3 : St) (count : Z) :
  IsBlocked now key s = ((false, None), s1) →
  Increment now key Second s1 = ((count, None), s2) →
  count > limit →
  SetBlock now key (blockDuration rl) s2 = (None, s3) →
  CheckLimit rl now ip token s =
    ((Some {| Allowed := false; Remaining := 0;
              ResetTime := now + blockDuration rl; Blocked := true |}, None), s3).
Proof.
  intros H1 H2 Hgt H3. unfold CheckLimit. rewrite Hkey, H1, H2.
  rewrite bool_decide_eq_true_2 by done. by rewrite H3.
Qed.

Lemma path_allowed (s s1 s2 : St) (count : Z) :
  IsBlocked now key s = ((false, None), s1) →
  Increment now key Second s1 = ((count, None), s2) →
  count <= limit →
  CheckLimit rl now ip token s =
    ((Some {| Allowed := true; Remaining := Z.max 0 (wrap64 (limit - count));
              ResetTime := now + Second; Blocked := false |}, None), s2).
Proof.
  intros H1 H2 Hle. unfold CheckLimit. rewrite Hkey, H1, H2.
  rewrite bool_decide_eq_false_2 by lia.
  repeat f_equal. case_bool_decide; lia.
Qed.
End Paths.

(** The recorder forwards a call and logs it. *)
Section Recording.
Context {St : Type} `{!Storage St}.

Lemma recorded_IsBlocked now key (s : Recorder St) res s1 :
  IsBlocked now key (inner s) = (res, s1) →
  IsBlocked now key s = (res, mkRecorder s1 (calls s ++ [CallIsBlocked key])).
Proof. intros H. simpl. unfold record. by rewrite H. Qed.

Lemma recorded_Increment now key w (s : Recorder St) res s1 :
  Increment now key w (inner s) = (res, s1) →
  Increment now key w s = (res, mkRecorder s1 (calls s ++ [CallIncrement key w])).
Proof. intros H. simpl. unfold record. by rewrite H. Qed.

Lemma recorded_SetBlock now key d (s : Recorder St) res s1 :
  SetBlock now key d (inner s) = (res, s1) →
  SetBlock now key d s = (res, mkRecorder s1 (calls s ++ [CallSetBlock key d])).
Proof. intros H. simpl. unfold record. by rewrite H. Qed.

(** Recording changes neither the results nor the storage underneath. *)
Lemma recorded_CheckLimit rl now ip token (s : Recorder St) :
  (CheckLimit rl now ip token s).1 = (CheckLimit rl now ip token (inner s)).1 ∧
  inner (CheckLimit rl now ip token s).2 = (CheckLimit rl now ip token (inner s)).2.
Proof.
  unfold CheckLimit. destruct (getKeyAndLimit rl ip token) as [key limit].
  simpl. unfold record.
  destruct (IsBlocked now key (inner s)) as [[b [e|]] s1]; simpl; [done|].
  destruct b; [done|].
  destruct (Increment now key Second s1) as [[c [e|]] s2]; simpl; [done|].
  case_bool_decide; [|done].
  destruct (SetBlock now key (blockDuration rl) s2) as [[e|] s3]; done.
Qed.
End Recording.

(** ** The Redis storage *)

Lemma live_later (t t' : Time) (k : string) (d : gmap string entry) :
  live t k d = None → t <= t' → live t' k d = None.
Proof.
  unfold live, expired. destruct (d !! k) as [e|]; [|done].
  destruct (expireAt e) as [w|]; [|done].
  repeat case_bool_decide; (done || lia).
Qed.

Lemma live_insert_eq (t : Time) (k : string) (e : entry) (d : gmap string entry) :
  live t k (<[k := e]> d) = if expired t e then None else Some e.
Proof. unfold live. by rewrite lookup_insert_eq. Qed.

Lemma live_insert_ne (t : Time) (k k' : string) (e : entry) (d : gmap string entry) :
  k ≠ k' → live t k' (<[k := e]> d) = live t k' d.
Proof. intros Hne. unfold live. by rewrite lookup_insert_ne. Qed.

Lemma healthy_round_trip {A : Type} (r : RedisStorage)
    (cmds : gmap string entry → A * gmap string entry) :
  healthy r →
  round_trip (client r) cmds =
    (inl (cmds (server (client r))).1, client (set_server (cmds (server (client r))).2 r)).
Proof.
  destruct r as [[d o c]]. intros [Hc Ho]; simpl in *; subst.
  unfold round_trip; simpl. by destruct (cmds d).
Qed.

Lemma storage_eta (r : RedisStorage) : mkRedisStorage (client r) = r.
Proof. by destruct r. Qed.

Lemma set_server_id (r : RedisStorage) : set_server (server (client r)) r = r.
Proof. by destruct r as [[d o c]]. Qed.

Lemma set_server_healthy (d : gmap string entry) (r : RedisStorage) :
  healthy r → healthy (set_server d r).
Proof. by intros [Hc Ho]. Qed.

Lemma redis_IsBlocked (now : Time) (key : string) (r : RedisStorage) :
  healthy r →
  IsBlocked now key r = ((bool_decide (is_Some (block_flag now key r)), None), r).
Proof.
  intros Hh. simpl. unfold RedisIsBlocked.
  rewrite (healthy_round_trip r _ Hh). unfold EXISTS, block_flag. cbn [fst snd].
  rewrite storage_eta, set_server_id.
  by destruct (live now _ (server (client r))) as [e|].
Qed.

Lemma formatSec_Second : formatSec Second = 1.
Proof. reflexivity. Qed.

Lemma redis_Increment (now : Time) (key : string) (r : RedisStorage) (n : Z) :
  healthy r → holds_count now key r n → n ≠ max_int64 →
  Increment now key Second r =
    ((n + 1, None),
     set_server (<["rate_limit:" +:+ key := mkEntry (RInt (n + 1)) (Some (now + Second))]>
                   (server (client r))) r).
Proof.
  intros Hh Hn Hmax. simpl. unfold RedisIncrement.
  rewrite (healthy_round_trip r _ Hh).
  unfold holds_count, counter in Hn.
  set (ck := "rate_limit:" +:+ key) in *. set (d := server (client r)) in *.
  unfold INCR.
  destruct (live now ck d) as [e|] eqn:Hlive.
  - rewrite Hn; simpl. rewrite bool_decide_eq_false_2 by done.
    unfold EXPIRE. rewrite live_insert_eq. unfold live in Hlive.
    destruct (d !! ck) as [e'|]; [|done].
    destruct (expired now e') eqn:Hexp; [done|]. injection Hlive as ->.
    unfold expired in *; simpl. rewrite Hexp.
    rewrite formatSec_Second; simpl.
    by rewrite insert_insert_eq.
  - subst n. unfold EXPIRE. rewrite live_insert_eq; simpl.
    rewrite formatSec_Second; simpl.
    by rewrite insert_insert_eq.
Qed.

Lemma formatMs_pos (d : Duration) : 0 < d → 0 < formatMs d.
Proof.
  intros Hd. unfold formatMs.
  rewrite (bool_decide_eq_true_2 (0 < d)) by done. simpl.
  case_bool_decide as Hlt; [lia|].
  unfold Millisecond in *. rewrite Z.quot_div_nonneg by lia.
  apply Z.div_str_pos. lia.
Qed.

Lemma formatSec_pos (d : Duration) : 0 < d → 0 < formatSec d.
Proof.
  intros Hd. unfold formatSec.
  rewrite (bool_decide_eq_true_2 (0 < d)) by done. simpl.
  case_bool_decide as Hlt; [lia|].
  unfold Second in *. rewrite Z.quot_div_nonneg by lia.
  apply Z.div_str_pos. lia.
Qed.

(** Whatever the expiration, the SET that [client.Set] sends is accepted. *)
Lemma SET_set_args (now : Time) (k v : string) (dur : Duration) (d : gmap string entry) :
  ∃ w, SET now k v (set_args dur) d = (Status "OK", <[k := mkEntry (RStr v) w]> d).
Proof.
  unfold set_args. case_bool_decide as Hpos.
  - destruct (usePrecise dur); simpl.
    + pose proof (formatMs_pos dur Hpos).
      rewrite bool_decide_eq_false_2 by lia. eauto.
    + pose proof (formatSec_pos dur Hpos).
      rewrite bool_decide_eq_false_2 by lia. eauto.
  - case_bool_decide; simpl; eauto.
Qed.

Lemma redis_SetBlock (now : Time) (key : string) (dur : Duration) (r : RedisStorage) :
  healthy r →
  ∃ w, SetBlock now key dur r =
    (None, set_server (<["blocked:" +:+ key := mkEntry (RStr "1") w]> (server (client r))) r).
Proof.
  intros Hh. simpl. unfold RedisSetBlock.
  rewrite (healthy_round_trip r _ Hh).
  destruct (SET_set_args now ("blocked:" +:+ key) "1" dur (server (client r))) as [w Hw].
  exists w. rewrite Hw. simpl. by destruct r as [[d o c]].
Qed.

Lemma counter_set_count (t t' : Time) (key : string) (n : Z) (d : gmap string entry)
    (r : RedisStorage) :
  t' <= t + Second →
  counter t' key
    (set_server (<["rate_limit:" +:+ key := mkEntry (RInt n) (Some (t + Second))]> d) r)
  = Some (mkEntry (RInt n) (Some (t + Second))).
Proof.
  intros Ht. unfold counter; simpl. rewrite live_insert_eq.
  unfold expired; simpl. by rewrite bool_decide_eq_false_2 by lia.
Qed.

Lemma counter_set_block (t : Time) (key key' : string) (e : entry) (d : gmap string entry)
    (r : RedisStorage) :
  counter t key (set_server (<["blocked:" +:+ key' := e]> d) r) = live t ("rate_limit:" +:+ key) d.
Proof. unfold counter; simpl. by rewrite live_insert_ne. Qed.

Lemma block_flag_set_count (t : Time) (key key' : string) (e : entry) (d : gmap string entry)
    (r : RedisStorage) :
  block_flag t key (set_server (<["rate_limit:" +:+ key' := e]> d) r)
  = live t ("blocked:" +:+ key) d.
Proof. unfold block_flag; simpl. by rewrite live_insert_ne. Qed.

(** One call on a healthy Redis storage, for a key that is not blocked and
    whose count is [n]. *)
Lemma redis_CheckLimit_step (rl : RateLimiter) (t : Time) (ip token key : string)
    (L n : Z) (r : RedisStorage) (log : list call) :
  getKeyAndLimit rl ip token = (key, L) →
  healthy r → block_flag t key r = None → holds_count t key r n →
  0 <= n → n < max_int64 → L <= max_int64 →
  ∃ r', CheckLimit rl t ip token (mkRecorder r log)
        = (nth_outcome rl L (n + 1) t,
           mkRecorder r' (log ++ calls_of_check rl key L (n + 1)))
     ∧ healthy r'
     ∧ (∀ t', t' <= t + Second → holds_count t' key r' (n + 1))
     ∧ (n + 1 <= L → ∀ t', block_flag t' key r' = block_flag t' key r).
Proof.
  intros Hkey Hh Hnb Hn Hn0 Hmax HL.
  pose proof (redis_IsBlocked t key r Hh) as H1. rewrite Hnb in H1.
  rewrite bool_decide_eq_false_2 in H1 by (intros [? ?]; done).
  pose proof (redis_Increment t key r n Hh Hn ltac:(lia)) as H2.
  set (r1 := set_server _ r) in H2.
  assert (Hh1 : healthy r1) by by apply set_server_healthy.
  apply (recorded_IsBlocked t key (mkRecorder r log)) in H1.
  apply (recorded_Increment t key Second (mkRecorder r (log ++ [CallIsBlocked key]))) in H2.
  cbn [inner calls] in H1, H2.
  unfold nth_outcome, calls_of_check.
  destruct (decide (n + 1 <= L)) as [Hle|Hgt].
  - exists r1. split_and!; [|done| |].
    + rewrite (path_allowed rl t ip token key L Hkey _ _ _ _ H1 H2 Hle).
      rewrite bool_decide_eq_true_2 by done.
      rewrite bool_decide_eq_false_2 by lia.
      rewrite wrap64_in_range by (unfold in_int64, min_int64, max_int64 in *; lia).
      rewrite Z.max_r by lia. by rewrite <- app_assoc, app_nil_r.
    + intros t' Ht. unfold holds_count, r1. by rewrite counter_set_count.
    + intros _ t'. unfold r1. by rewrite block_flag_set_count.
  - destruct (redis_SetBlock t key (blockDuration rl) r1 Hh1) as [w H3].
    set (r2 := set_server _ r1) in H3.
    apply (recorded_SetBlock t key _
             (mkRecorder r1 ((log ++ [CallIsBlocked key]) ++ [CallIncrement key Second])))
      in H3.
    cbn [inner calls] in H3.
    exists r2. split_and!; [|by apply set_server_healthy| |lia].
    + rewrite (path_exceeded rl t ip token key L Hkey _ _ _ _ _ H1 H2 ltac:(lia) H3).
      rewrite bool_decide_eq_false_2 by done.
      rewrite bool_decide_eq_true_2 by lia.
      by rewrite <- !app_assoc.
    + intros t' Ht. unfold holds_count, r2. rewrite counter_set_block.
      unfold r1; simpl. rewrite live_insert_eq. unfold expired; simpl.
      by rewrite bool_decide_eq_false_2 by lia.
Qed.

Lemma block_flag_later (t t' : Time) (key : string) (r : RedisStorage) :
  block_flag t key r = None → t <= t' → block_flag t' key r = None.
Proof. apply live_later. Qed.

Lemma arrivals_length (t : Time) (gaps : list Duration) :
  length (arrivals t gaps) = S (length gaps).
Proof. revert t. induction gaps as [|g gaps IH]; intros t; simpl; [done|by rewrite IH]. Qed.

Lemma outcomes_from_length rl L i times :
  length (outcomes_from rl L i times) = length times.
Proof. revert i. induction times as [|t times IH]; intros i; simpl; [done|by rewrite IH]. Qed.

Lemma outcomes_from_lookup rl L (i : Z) (times : list Time) (k : nat) (t : Time) :
  times !! k = Some t →
  outcomes_from rl L i times !! k = Some (nth_outcome rl L (i + Z.of_nat k) t).
Proof.
  revert i k. induction times as [|t0 times IH]; intros i k; [done|].
  destruct k as [|k]; simpl.
  - intros [= ->]. by rewrite Z.add_0_r.
  - intros Hk. rewrite (IH (i + 1) k Hk). do 2 f_equal. lia.
Qed.

(** A run of calls paced inside the window, over any storage with an
    invariant [Inv n t s] ("at instant [t] the key is not blocked and its
    count is [n]") that one check takes from [n] to [n + 1].  The calls are
    numbered from [n + 1], and the last one is the [L + 1]-th. *)
Section Run.
Context {St : Type} `{!Storage St}.
Variables (rl : RateLimiter) (ip token key : string) (L : Z).
Variable Inv : Z → Time → St → Prop.
Hypothesis Hstep : ∀ (n : Z) (t : Time) (s : St) (log : list call),
  0 <= n → n <= L → Inv n t s →
  ∃ s', CheckLimit rl t ip token (mkRecorder s log)
        = (nth_outcome rl L (n + 1) t,
           mkRecorder s' (log ++ calls_of_check rl key L (n + 1)))
      ∧ (n + 1 <= L → ∀ g, 0 <= g <= Second → Inv (n + 1) (t + g) s').

Lemma paced_run (gaps : list Duration) :
  ∀ (t : Time) (n : Z) (s : St) (log : list call),
    0 <= n → n + Z.of_nat (length gaps) = L →
    Forall (λ g, 0 <= g <= Second) gaps →
    Inv n t s →
    ∃ s' new,
      CheckLimitSeq rl ip token (arrivals t gaps) (mkRecorder s log)
      = (outcomes_from rl L (n + 1) (arrivals t gaps), mkRecorder s' (log ++ new))
      ∧ length (List.filter is_SetBlock new) = 1%nat
      ∧ length (List.filter is_Increment new) = S (length gaps).
Proof.
  induction gaps as [|g gaps IH]; intros t n s log Hn0 Hlen Hgaps Hinv.
  - simpl in Hlen. assert (n = L) as -> by lia.
    destruct (Hstep L t s log) as (s' & Hcall & _); [lia|lia|done|].
    exists s', (calls_of_check rl key L (L + 1)).
    cbn [CheckLimitSeq arrivals outcomes_from]. rewrite Hcall.
    split; [done|]. unfold calls_of_check.
    by rewrite bool_decide_eq_true_2 by lia.
  - simpl in Hlen. apply Forall_cons in Hgaps as [Hg Hgaps].
    destruct (Hstep n t s log) as (s1 & Hcall & Hnext); [lia|lia|done|].
    destruct (IH (t + g) (n + 1) s1 (log ++ calls_of_check rl key L (n + 1))%list)
      as (s' & new & Hrun & Hsb & Hinc); [lia|lia|done|apply Hnext; lia|].
    exists s', (calls_of_check rl key L (n + 1) ++ new)%list.
    cbn [CheckLimitSeq arrivals outcomes_from]. rewrite Hcall, Hrun, app_assoc.
    split; [done|]. rewrite !List.filter_app, !length_app, Hsb, Hinc.
    unfold calls_of_check. by rewrite bool_decide_eq_false_2 by lia.
Qed.
End Run.

(** What a run of [L + 1] calls from a fresh key returns, call by call. *)
Lemma outcomes_from_fresh (rl : RateLimiter) (L : Z) (times : list Time) :
  0 <= L → length times = S (Z.to_nat L) →
  length (outcomes_from rl L 1 times) = S (Z.to_nat L)
  ∧ (∀ (i : nat) (t : Time), Z.of_nat i < L → times !! i = Some t →
       outcomes_from rl L 1 times !! i =
         Some (Some {| Allowed := true; Remaining := L - (Z.of_nat i + 1);
                       ResetTime := t + Second; Blocked := false |}, None))
  ∧ (∀ t : Time, times !! Z.to_nat L = Some t →
       outcomes_from rl L 1 times !! Z.to_nat L =
         Some (Some {| Allowed := false; Remaining := 0;
                       ResetTime := t + blockDuration rl; Blocked := true |}, None)).
Proof.
  intros HL Hlen. split_and!.
  - by rewrite outcomes_from_length.
  - intros i t Hi Ht. rewrite (outcomes_from_lookup rl L 1 times i t Ht).
    unfold nth_outcome. rewrite bool_decide_eq_true_2 by lia.
    do 4 f_equal. lia.
  - intros t Ht. rewrite (outcomes_from_lookup rl L 1 times _ t Ht).
    unfold nth_outcome. by rewrite bool_decide_eq_false_2 by lia.
Qed.

(** The invariant of a run on the Redis storage. *)
Lemma redis_run_step (rl : RateLimiter) (ip token key : string) (L : Z) :
  getKeyAndLimit rl ip token = (key, L) → L < max_int64 →
  ∀ (n : Z) (t : Time) (r : RedisStorage) (log : list call),
    0 <= n → n <= L →
    healthy r ∧ block_flag t key r = None ∧ holds_count t key r n →
    ∃ r', CheckLimit rl t ip token (mkRecorder r log)
          = (nth_outcome rl L (n + 1) t,
             mkRecorder r' (log ++ calls_of_check rl key L (n + 1)))
        ∧ (n + 1 <= L → ∀ g, 0 <= g <= Second →
           healthy r' ∧ block_flag (t + g) key r' = None
           ∧ holds_count (t + g) key r' (n + 1)).
Proof.
  intros Hkey HL n t r log Hn0 HnL (Hh & Hnb & Hn).
  destruct (redis_CheckLimit_step rl t ip token key L n r log Hkey Hh Hnb Hn)
    as (r' & Hcall & Hh' & Hcount & Hflag); [lia..|].
  exists r'. split; [done|]. intros Hle g Hg. split_and!; [done| |apply Hcount; lia].
  rewrite Hflag by done. apply (block_flag_later t); [done|lia].
Qed.

(** The invariant of a run on the in-memory storage. *)
Lemma inmemory_run_step (rl : RateLimiter) (ip token key : string) (L : Z) :
  getKeyAndLimit rl ip token = (key, L) → L < max_int64 →
  ∀ (n : Z) (t : Time) (i : InMemoryStorage) (log : list call),
    0 <= n → n <= L →
    blocked i !! key = None ∧ default 0 (counts i !! key) = n →
    ∃ i', CheckLimit rl t ip token (mkRecorder i log)
          = (nth_outcome rl L (n + 1) t,
             mkRecorder i' (log ++ calls_of_check rl key L (n + 1)))
        ∧ (n + 1 <= L → ∀ g, 0 <= g <= Second →
           blocked i' !! key = None ∧ default 0 (counts i' !! key) = n + 1).
Proof.
  intros Hkey HL n t i log Hn0 HnL (Hnb & Hn).
  assert (Hw : wrap64 (n + 1) = n + 1).
  { apply wrap64_in_range. unfold in_int64, min_int64, max_int64 in *. lia. }
  set (i1 := {| counts := <[key := n + 1]> (counts i); blocked := blocked i |}).
  assert (H1 : IsBlocked t key (mkRecorder i log)
               = ((false, None), mkRecorder i (log ++ [CallIsBlocked key]))).
  { apply (recorded_IsBlocked t key (mkRecorder i log)). simpl. by rewrite Hnb. }
  assert (H2 : Increment t key Second (mkRecorder i (log ++ [CallIsBlocked key]))
               = ((n + 1, None),
                  mkRecorder i1 ((log ++ [CallIsBlocked key]) ++ [CallIncrement key Second]))).
  { apply (recorded_Increment t key Second (mkRecorder i (log ++ [CallIsBlocked key]))).
    simpl. by rewrite Hn, Hw. }
  unfold nth_outcome, calls_of_check.
  destruct (decide (n + 1 <= L)) as [Hle|Hgt].
  - exists i1. split.
    + rewrite (path_allowed rl t ip token key L Hkey _ _ _ _ H1 H2 Hle).
      rewrite bool_decide_eq_true_2 by done.
      rewrite bool_decide_eq_false_2 by lia.
      rewrite wrap64_in_range by (unfold in_int64, min_int64, max_int64 in *; lia).
      rewrite Z.max_r by lia. by rewrite <- app_assoc, app_nil_r.
    + intros _ g Hg. unfold i1; simpl. by rewrite lookup_insert_eq.
  - set (i2 := {| counts := counts i1;
                  blocked := <[key := Add t (blockDuration rl)]> (blocked i1) |}).
    assert (H3 : SetBlock t key (blockDuration rl)
                   (mkRecorder i1 ((log ++ [CallIsBlocked key]) ++ [CallIncrement key Second]))
                 = (None, mkRecorder i2 (((log ++ [CallIsBlocked key])
                                          ++ [CallIncrement key Second])
                                         ++ [CallSetBlock key (blockDuration rl)]))).
    { by apply (recorded_SetBlock t key (blockDuration rl)
                  (mkRecorder i1 ((log ++ [CallIsBlocked key]) ++ [CallIncrement key Second]))). }
    exists i2. split; [|lia].
    rewrite (path_exceeded rl t ip token key L Hkey _ _ _ _ _ H1 H2 ltac:(lia) H3).
    rewrite bool_decide_eq_false_2 by done.
    rewrite bool_decide_eq_true_2 by lia. by rewrite <- !app_assoc.
Qed.

(** Whatever a [Set] call stores is visible at the instant of the call. *)
Lemma SET_set_args_live (now : Time) (k v : string) (dur : Duration) (d : gmap string entry) :
  is_Some (live now k (SET now k v (set_args dur) d).2).
Proof.
  unfold set_args. case_bool_decide as Hpos.
  - destruct (usePrecise dur); simpl.
    + pose proof (formatMs_pos dur Hpos).
      rewrite bool_decide_eq_false_2 by lia. simpl. rewrite live_insert_eq.
      unfold expired, Millisecond; simpl. rewrite bool_decide_eq_false_2 by lia. eauto.
    + pose proof (formatSec_pos dur Hpos).
      rewrite bool_decide_eq_false_2 by lia. simpl. rewrite live_insert_eq.
      unfold expired, Second; simpl. rewrite bool_decide_eq_false_2 by lia. eauto.
  - case_bool_decide; simpl; rewrite live_insert_eq; unfold expired; simpl; [|eauto].
    unfold live. destruct (d !! k) as [e|]; simpl; [|eauto].
    destruct (expired now e) eqn:He; simpl; [eauto|].
    unfold expired in He. destruct (expireAt e); rewrite ?He; eauto.
Qed.

(** A read of the block flag leaves the server's keyspace as it was. *)
Lemma RedisIsBlocked_server (now : Time) (key : string) (r : RedisStorage) :
  server (client (RedisIsBlocked now key r).2) = server (client r).
Proof.
  unfold RedisIsBlocked, round_trip. destruct r as [[d o c]]; simpl.
  destruct c; simpl; [done|].
  destruct o as [|[] o]; simpl; done.
Qed.

(** A [SetBlock] that fails leaves the server's keyspace as it was. *)
Lemma RedisSetBlock_fails_server (now : Time) (key : string) (dur : Duration)
    (r r' : RedisStorage) (e : error) :
  RedisSetBlock now key dur r = (Some e, r') → server (client r') = server (client r).
Proof.
  unfold RedisSetBlock, round_trip. destruct r as [[d o c]]; simpl.
  destruct c; simpl; [by intros [= _ <-]|].
  destruct (SET_set_args now ("blocked:" +:+ key) "1" dur d) as [w Hw].
  destruct o as [|[] o]; simpl; rewrite ?Hw; simpl; intros [= ? <-]; done.
Qed.

(** An [Increment] that succeeds leaves the count it returns on the server,
    expiring one window later. *)
Lemma RedisIncrement_stored (now : Time) (key : string) (r r' : RedisStorage) (count : Z) :
  RedisIncrement now key Second r = ((count, None), r') →
  counter now key r' = Some (mkEntry (RInt count) (Some (now + Second))).
Proof.
  unfold RedisIncrement, round_trip, counter. destruct r as [[d o c]]; simpl.
  set (ck := "rate_limit:" +:+ key).
  destruct c; simpl; [done|].
  assert (Hcmds : ∀ incr expire d',
    (let '(incr, d1) := INCR now ck d in
     let '(expire, d2) := EXPIRE now ck (formatSec Second) d1 in (incr, expire, d2))
    = (incr, expire, d') →
    reply_err incr = None →
    live now ck d' = Some (mkEntry (RInt (reply_int incr)) (Some (now + Second)))).
  { intros incr expire d'. unfold INCR.
    destruct (live now ck d) as [e|] eqn:Hlive.
    - destruct (int_of_rvalue (val e)) as [n|];
        [|by destruct (EXPIRE now ck (formatSec Second) d); intros [= <- _ _]].
      case_bool_decide;
        [by destruct (EXPIRE now ck (formatSec Second) d); intros [= <- _ _]|].
      unfold EXPIRE. rewrite live_insert_eq.
      unfold live in Hlive. destruct (d !! ck) as [e'|]; [|done].
      destruct (expired now e') eqn:Hexp; [done|]. injection Hlive as ->.
      unfold expired in *; simpl. rewrite Hexp. rewrite formatSec_Second; simpl.
      intros [= <- _ <-] _. rewrite live_insert_eq. unfold expired; simpl.
      by rewrite bool_decide_eq_false_2 by (unfold Second; lia).
    - unfold EXPIRE. rewrite live_insert_eq; simpl. rewrite formatSec_Second; simpl.
      intros [= <- _ <-] _. rewrite live_insert_eq. unfold expired; simpl.
      by rewrite bool_decide_eq_false_2 by (unfold Second; lia). }
  destruct o as [|[] o]; simpl; [| done |].
  all: destruct (INCR now ck d) as [incr d1];
    destruct (EXPIRE now ck (formatSec Second) d1) as [expire d2]; simpl;
    specialize (Hcmds incr expire d2 eq_refl);
    destruct (reply_err incr); [done|];
    destruct (reply_err expire); [done|];
    intros [= <- <-]; simpl; by apply Hcmds.
Qed.

(** *** What a call on one key reads and writes *)

Lemma INCR_frame (now : Time) (k k' : string) (d : gmap string entry) :
  k' ≠ k → (INCR now k d).2 !! k' = d !! k'.
Proof.
  intros Hne. unfold INCR. destruct (live now k d) as [e|]; simpl.
  - destruct (int_of_rvalue (val e)); [|done].
    case_bool_decide; simpl; [done|]. by rewrite lookup_insert_ne.
  - by rewrite lookup_insert_ne.
Qed.

Lemma EXPIRE_frame (now : Time) (k k' : string) (secs : Z) (d : gmap string entry) :
  k' ≠ k → (EXPIRE now k secs d).2 !! k' = d !! k'.
Proof.
  intros Hne. unfold EXPIRE. destruct (live now k d) as [e|]; simpl; [|done].
  case_bool_decide; simpl; [by rewrite lookup_delete_ne|by rewrite lookup_insert_ne].
Qed.

Lemma SET_frame (now : Time) (k k' v : string) (o : set_option) (d : gmap string entry) :
  k' ≠ k → (SET now k v o d).2 !! k' = d !! k'.
Proof.
  intros Hne. unfold SET. destruct o; simpl.
  - by rewrite lookup_insert_ne.
  - case_bool_decide; simpl; [done|by rewrite lookup_insert_ne].
  - case_bool_decide; simpl; [done|by rewrite lookup_insert_ne].
  - by rewrite lookup_insert_ne.
Qed.

Lemma round_trip_server {A : Type} (c : Client)
    (cmds : gmap string entry → A * gmap string entry) (k : string) :
  (∀ d, (cmds d).2 !! k = d !! k) →
  server (round_trip c cmds).2 !! k = server c !! k.
Proof.
  intros Hcmds. unfold round_trip. destruct c as [d o cl]; simpl.
  destruct cl; simpl; [done|].
  destruct o as [|[] o]; simpl; [|done|];
    specialize (Hcmds d); by destruct (cmds d).
Qed.

Lemma round_trip_conn {A : Type} (c c' : Client)
    (cmds cmds' : gmap string entry → A * gmap string entry) :
  closed c = closed c' → outages c = outages c' →
  closed (round_trip c cmds).2 = closed (round_trip c' cmds').2
  ∧ outages (round_trip c cmds).2 = outages (round_trip c' cmds').2.
Proof.
  destruct c as [d o cl], c' as [d' o' cl']; simpl. intros -> ->.
  unfold round_trip; simpl. destruct cl'; simpl; [done|].
  destruct o' as [|[] o']; simpl; [|done|]; by destruct (cmds d), (cmds' d').
Qed.

Lemma round_trip_reply {A : Type} (c c' : Client)
    (cmds cmds' : gmap string entry → A * gmap string entry) :
  closed c = closed c' → outages c = outages c' →
  (cmds (server c)).1 = (cmds' (server c')).1 →
  (round_trip c cmds).1 = (round_trip c' cmds').1.
Proof.
  destruct c as [d o cl], c' as [d' o' cl']; simpl. intros -> -> Hr.
  unfold round_trip; simpl. destruct cl'; simpl; [done|].
  destruct o' as [|[] o']; simpl; [|done|];
    destruct (cmds d), (cmds' d'); simpl in *; by subst.
Qed.

Lemma RedisIncrement_frame (now : Time) (key : string) (w : Duration)
    (r : RedisStorage) (k : string) :
  k ≠ "rate_limit:" +:+ key →
  server (client (RedisIncrement now key w r).2) !! k = server (client r) !! k.
Proof.
  intros Hne. unfold RedisIncrement.
  match goal with |- context [round_trip (client r) ?f] =>
    pose proof (round_trip_server (client r) f k) as Hrt;
    destruct (round_trip (client r) f) as [res c] end.
  simpl in Hrt. rewrite <- Hrt.
  - by destruct res as [[incr expire]|e]; simpl;
      [destruct (reply_err incr); [|destruct (reply_err expire)]|].
  - intros d. pose proof (INCR_frame now _ k d Hne) as H1.
    destruct (INCR now ("rate_limit:" +:+ key) d) as [incr d1]; simpl in *.
    pose proof (EXPIRE_frame now _ k (formatSec w) d1 Hne) as H2.
    destruct (EXPIRE now ("rate_limit:" +:+ key) (formatSec w) d1) as [expire d2].
    simpl in *. congruence.
Qed.

Lemma RedisSetBlock_frame (now : Time) (key : string) (dur : Duration)
    (r : RedisStorage) (k : string) :
  k ≠ "blocked:" +:+ key →
  server (client (RedisSetBlock now key dur r).2) !! k = server (client r) !! k.
Proof.
  intros Hne. unfold RedisSetBlock.
  match goal with |- context [round_trip (client r) ?f] =>
    pose proof (round_trip_server (client r) f k) as Hrt;
    destruct (round_trip (client r) f) as [res c] end.
  simpl in Hrt. rewrite <- Hrt.
  - by destruct res as [rep|e]; simpl; [destruct (reply_err rep)|].
  - intros d. by apply SET_frame.
Qed.

(** A check writes nothing outside the two server keys of its own key. *)
Lemma redis_CheckLimit_frame (rl : RateLimiter) (now : Time) (ip token : string)
    (r : RedisStorage) (k : string) :
  k ≠ "rate_limit:" +:+ (getKeyAndLimit rl ip token).1 →
  k ≠ "blocked:" +:+ (getKeyAndLimit rl ip token).1 →
  server (client (CheckLimit rl now ip token r).2) !! k = server (client r) !! k.
Proof.
  unfold CheckLimit. destruct (getKeyAndLimit rl ip token) as [key limit].
  cbn [fst]. intros Hc Hb.
  pose proof (RedisIsBlocked_server now key r
              : server (client (IsBlocked now key r).2) = _) as H1.
  destruct (IsBlocked now key r) as [[b [e|]] r1]; cbn [fst snd] in *; [by rewrite H1|].
  destruct b; cbn [fst snd]; [by rewrite H1|].
  pose proof (RedisIncrement_frame now key Second r1 k Hc
              : server (client (Increment now key Second r1).2) !! k = _) as H2.
  destruct (Increment now key Second r1) as [[c [e|]] r2]; cbn [fst snd] in *;
    [by rewrite H2, H1|].
  case_bool_decide; cbn [fst snd]; [|by rewrite H2, H1].
  pose proof (RedisSetBlock_frame now key (blockDuration rl) r2 k Hb
              : server (client (SetBlock now key (blockDuration rl) r2).2) !! k = _) as H3.
  destruct (SetBlock now key (blockDuration rl) r2) as [[e|] r3]; cbn [fst snd] in *;
    by rewrite H3, H2, H1.
Qed.

Lemma INCR_view (now : Time) (k : string) (d d' : gmap string entry) :
  live now k d = live now k d' →
  (INCR now k d).1 = (INCR now k d').1
  ∧ live now k (INCR now k d).2 = live now k (INCR now k d').2.
Proof.
  intros Hv. unfold INCR. rewrite <- Hv.
  destruct (live now k d) as [e|] eqn:Hd; simpl.
  - destruct (int_of_rvalue (val e)); simpl; [|by rewrite Hd, <- Hv].
    case_bool_decide; simpl; [by rewrite Hd, <- Hv|].
    by rewrite !live_insert_eq.
  - by rewrite !live_insert_eq.
Qed.

Lemma EXPIRE_view (now : Time) (k : string) (secs : Z) (d d' : gmap string entry) :
  live now k d = live now k d' → (EXPIRE now k secs d).1 = (EXPIRE now k secs d').1.
Proof.
  intros Hv. unfold EXPIRE. rewrite <- Hv.
  destruct (live now k d); simpl; [by case_bool_decide|done].
Qed.

Lemma SET_view (now : Time) (k v : string) (o : set_option) (d d' : gmap string entry) :
  (SET now k v o d).1 = (SET now k v o d').1.
Proof. unfold SET. destruct o; simpl; try done; by case_bool_decide. Qed.

Lemma RedisIsBlocked_view (now : Time) (key : string) (r r' : RedisStorage) :
  conn r = conn r' → block_flag now key r = block_flag now key r' →
  (RedisIsBlocked now key r).1 = (RedisIsBlocked now key r').1
  ∧ conn (RedisIsBlocked now key r).2 = conn (RedisIsBlocked now key r').2.
Proof.
  unfold conn, block_flag. intros [= Hcl Ho] Hv. unfold RedisIsBlocked.
  set (f := EXISTS now ("blocked:" +:+ key)).
  pose proof (round_trip_reply (client r) (client r') f f Hcl Ho) as Hrep.
  pose proof (round_trip_conn (client r) (client r') f f Hcl Ho) as [Hc1 Hc2].
  destruct (round_trip (client r) f) as [res c], (round_trip (client r') f) as [res' c'].
  simpl in *. rewrite <- Hrep by (unfold f, EXISTS; simpl; by rewrite Hv).
  destruct res as [rep|e]; simpl; [destruct (reply_err rep)|]; simpl; by rewrite Hc1, Hc2.
Qed.

Lemma RedisIncrement_view (now : Time) (key : string) (w : Duration) (r r' : RedisStorage) :
  conn r = conn r' → counter now key r = counter now key r' →
  (RedisIncrement now key w r).1 = (RedisIncrement now key w r').1
  ∧ conn (RedisIncrement now key w r).2 = conn (RedisIncrement now key w r').2.
Proof.
  unfold conn, counter. intros [= Hcl Ho] Hv. unfold RedisIncrement.
  match goal with |- context [round_trip (client r) ?g] => set (f := g) end.
  pose proof (round_trip_reply (client r) (client r') f f Hcl Ho) as Hrep.
  pose proof (round_trip_conn (client r) (client r') f f Hcl Ho) as [Hc1 Hc2].
  destruct (round_trip (client r) f) as [res c], (round_trip (client r') f) as [res' c'].
  simpl in *. rewrite <- Hrep.
  - destruct res as [[incr expire]|e]; simpl;
      [destruct (reply_err incr); [|destruct (reply_err expire)]|];
      simpl; by rewrite Hc1, Hc2.
  - unfold f. destruct (INCR_view now _ _ _ Hv) as [Hi Hl].
    destruct (INCR now ("rate_limit:" +:+ key) (server (client r))) as [i1 d1],
             (INCR now ("rate_limit:" +:+ key) (server (client r'))) as [i2 d2].
    simpl in *. pose proof (EXPIRE_view now _ (formatSec w) _ _ Hl) as He.
    destruct (EXPIRE now ("rate_limit:" +:+ key) (formatSec w) d1),
             (EXPIRE now ("rate_limit:" +:+ key) (formatSec w) d2).
    simpl in *. by subst.
Qed.

Lemma RedisSetBlock_view (now : Time) (key : string) (dur : Duration) (r r' : RedisStorage) :
  conn r = conn r' →
  (RedisSetBlock now key dur r).1 = (RedisSetBlock now key dur r').1.
Proof.
  unfold conn. intros [= Hcl Ho]. unfold RedisSetBlock.
  match goal with |- context [round_trip (client r) ?g] => set (f := g) end.
  pose proof (round_trip_reply (client r) (client r') f f Hcl Ho) as Hrep.
  destruct (round_trip (client r) f) as [res c], (round_trip (client r') f) as [res' c'].
  simpl in *. rewrite <- Hrep by apply SET_view.
  by destruct res as [rep|e]; simpl; [destruct (reply_err rep)|].
Qed.

(** The outcome of a check depends on the connection and on what the server
    holds for the key of the check, and on nothing else the server holds. *)
Lemma redis_CheckLimit_view (rl : RateLimiter) (now : Time) (ip token : string)
    (r r' : RedisStorage) :
  same_view now (getKeyAndLimit rl ip token).1 r r' →
  (CheckLimit rl now ip token r).1 = (CheckLimit rl now ip token r').1.
Proof.
  unfold CheckLimit, same_view. destruct (getKeyAndLimit rl ip token) as [key limit].
  cbn [fst]. intros (Hconn & Hcount & Hflag).
  pose proof (RedisIsBlocked_view now key r r' Hconn Hflag
              : (IsBlocked now key r).1 = (IsBlocked now key r').1 ∧
                conn (IsBlocked now key r).2 = conn (IsBlocked now key r').2) as [H1 Hc1].
  pose proof (RedisIsBlocked_server now key r
              : server (client (IsBlocked now key r).2) = _) as Hs.
  pose proof (RedisIsBlocked_server now key r'
              : server (client (IsBlocked now key r').2) = _) as Hs'.
  destruct (IsBlocked now key r) as [[b err] r1], (IsBlocked now key r') as [[b' err'] r1'].
  cbn [fst snd] in *. injection H1 as <- <-.
  destruct err as [e|]; [done|]. destruct b; [done|].
  assert (counter now key r1 = counter now key r1') as Hcount1.
  { unfold counter in *. by rewrite Hs, Hs'. }
  pose proof (RedisIncrement_view now key Second r1 r1' Hc1 Hcount1
              : (Increment now key Second r1).1 = (Increment now key Second r1').1 ∧
                conn (Increment now key Second r1).2 = conn (Increment now key Second r1').2)
    as [H2 Hc2].
  destruct (Increment now key Second r1) as [[c err] r2],
           (Increment now key Second r1') as [[c' err'] r2'].
  cbn [fst snd] in *. injection H2 as <- <-.
  destruct err as [e|]; [done|]. case_bool_decide; [|done].
  pose proof (RedisSetBlock_view now key (blockDuration rl) r2 r2' Hc2
              : (SetBlock now key (blockDuration rl) r2).1 =
                (SetBlock now key (blockDuration rl) r2').1) as H3.
  destruct (SetBlock now key (blockDuration rl) r2) as [err r3],
           (SetBlock now key (blockDuration rl) r2') as [err' r3'].
  cbn [fst snd] in *. subst err'. by destruct err.
Qed.

(** A check on the in-memory storage writes nothing outside its own key. *)
Lemma InMemory_CheckLimit_frame (rl : RateLimiter) (now : Time) (ip token : string)
    (i : InMemoryStorage) (k : string) :
  k ≠ (getKeyAndLimit rl ip token).1 →
  counts (CheckLimit rl now ip token i).2 !! k = counts i !! k
  ∧ blocked (CheckLimit rl now ip token i).2 !! k = blocked i !! k.
Proof.
  unfold CheckLimit. destruct (getKeyAndLimit rl ip token) as [key limit].
  cbn [fst]. intros Hne. simpl.
  destruct (blocked i !! key) as [u|]; simpl.
  - case_bool_decide; simpl; [done|].
    case_bool_decide; simpl; rewrite ?lookup_insert_ne, ?lookup_delete_ne by done; done.
  - case_bool_decide; simpl; rewrite ?lookup_insert_ne by done; done.
Qed.

(** A check that finds its key blocked leaves the in-memory storage as it
    was. *)
Lemma InMemory_IsBlocked_true (now : Time) (key : string) (i i1 : InMemoryStorage) :
  IsBlocked now key i = ((true, None), i1) → i1 = i.
Proof.
  simpl. destruct (blocked i !! key) as [u|]; [|done].
  case_bool_decide; [by intros [= <-]|done].
Qed.

(** Every call a check makes is about the key it resolved. *)
Lemma CheckLimit_calls {St : Type} `{!Storage St} (rl : RateLimiter) (now : Time)
    (ip token : string) (s : Recorder St) :
  ∃ new, calls (CheckLimit rl now ip token s).2 = (calls s ++ new)%list
       ∧ Forall (λ c, call_key c = Some (getKeyAndLimit rl ip token).1) new.
Proof.
  unfold CheckLimit. destruct (getKeyAndLimit rl ip token) as [key limit].
  cbn [fst]. simpl. unfold record.
  destruct (IsBlocked now key (inner s)) as [[b [e|]] s1]; simpl.
  { exists [CallIsBlocked key]. split; [done|]. by repeat constructor. }
  destruct b; simpl.
  { exists [CallIsBlocked key]. split; [done|]. by repeat constructor. }
  destruct (Increment now key Second s1) as [[c [e|]] s2]; simpl.
  { exists [CallIsBlocked key; CallIncrement key Second].
    split; [by rewrite <- app_assoc|]. by repeat constructor. }
  case_bool_decide; simpl.
  - exists [CallIsBlocked key; CallIncrement key Second;
            CallSetBlock key (blockDuration rl)].
    split; [|by repeat constructor].
    destruct (SetBlock now key (blockDuration rl) s2) as [[e|] s3]; simpl;
      by rewrite <- !app_assoc.
  - exists [CallIsBlocked key; CallIncrement key Second].
    split; [by rewrite <- app_assoc|]. by repeat constructor.
Qed.

(** On the Redis storage a check leaves the count and the block flag of
    every other key as they were. *)
Lemma redis_CheckLimit_other_key (rl : RateLimiter) (now : Time) (ip token : string)
    (r : RedisStorage) (key' : string) (t : Time) :
  key' ≠ (getKeyAndLimit rl ip token).1 →
  counter t key' (CheckLimit rl now ip token r).2 = counter t key' r
  ∧ block_flag t key' (CheckLimit rl now ip token r).2 = block_flag t key' r.
Proof.
  intros Hne. unfold counter, block_flag, live.
  rewrite !redis_CheckLimit_frame; [done|..];
    intros Heq; first [by apply prefix_inj in Heq | by simpl in Heq].
Qed.

(** * The claims *)

(** C2. Key-and-limit resolution is a function of the policy, the ip and the
    token alone, with strict token priority: for a non-empty token the key
    is "token:" followed by the token and the limit is the token's entry in
    the overrides when it has one, the default token limit otherwise, and
    the ip has no effect on the result; for an empty token the key is "ip:"
    followed by the ip and the limit is the default IP limit. *)
Theorem getKeyAndLimit_token_priority (rl : RateLimiter) (ip token : string) :
  (token ≠ "" →
     (∀ limit, tokenLimits rl !! token = Some limit →
        getKeyAndLimit rl ip token = ("token:" +:+ token, limit))
     ∧ (tokenLimits rl !! token = None →
        getKeyAndLimit rl ip token = ("token:" +:+ token, defaultTokenLimit rl))
     ∧ (∀ ip', getKeyAndLimit rl ip' token = getKeyAndLimit rl ip token))
  ∧ (token = "" →
     getKeyAndLimit rl ip token = ("ip:" +:+ ip, defaultIPLimit rl)).
Proof.
  split.
  - intros Ht. split_and!.
    + intros limit Hl. by rewrite getKeyAndLimit_token, Hl.
    + intros Hl. by rewrite getKeyAndLimit_token, Hl.
    + intros ip'. by rewrite !getKeyAndLimit_token.
  - intros ->. apply getKeyAndLimit_ip.
Qed.

(** C3. When the resolved key is blocked ([IsBlocked] answers true without
    error) [CheckLimit] returns the rejection with no quota left, a reset
    time one block duration ahead and the blocked mark; the only call the
    storage receives is that [IsBlocked], so there is neither an increment
    nor a [SetBlock], and the storage is left in the state the read left it
    in.  On the Redis storage that read leaves the whole keyspace, hence the
    window counter, as it was, and so it does on the in-memory storage. *)
Theorem blocked_key_short_circuits :
  (∀ (St : Type) (H : Storage St) (rl : RateLimiter) (now : Time)
     (ip token key : string) (limit : Z) (s : Recorder St) (s1 : St),
     getKeyAndLimit rl ip token = (key, limit) →
     IsBlocked now key (inner s) = ((true, None), s1) →
     CheckLimit rl now ip token s =
       ((Some {| Allowed := false; Remaining := 0;
                 ResetTime := now + blockDuration rl; Blocked := true |}, None),
        mkRecorder s1 (calls s ++ [CallIsBlocked key])))
  ∧ (∀ (rl : RateLimiter) (now : Time) (ip token key : string) (limit : Z)
       (r r1 : RedisStorage),
     getKeyAndLimit rl ip token = (key, limit) →
     IsBlocked now key r = ((true, None), r1) →
     (CheckLimit rl now ip token r).2 = r1
     ∧ server (client r1) = server (client r)
     ∧ ∀ t k, counter t k r1 = counter t k r)
  ∧ (∀ (rl : RateLimiter) (now : Time) (ip token key : string) (limit : Z)
       (i i1 : InMemoryStorage),
     getKeyAndLimit rl ip token = (key, limit) →
     IsBlocked now key i = ((true, None), i1) →
     (CheckLimit rl now ip token i).2 = i).
Proof.
  split_and!.
  - intros St H rl now ip token key limit s s1 Hkey H1.
    apply (recorded_IsBlocked now key s) in H1.
    by rewrite (path_blocked rl now ip token key limit Hkey _ _ H1).
  - intros rl now ip token key limit r r1 Hkey H1.
    rewrite (path_blocked rl now ip token key limit Hkey _ _ H1).
    assert (server (client r1) = server (client r)) as Hs.
    { pose proof (RedisIsBlocked_server now key r) as Hs.
      simpl in H1. by rewrite H1 in Hs. }
    split_and!; [done|done|]. intros t k. unfold counter. by rewrite Hs.
  - intros rl now ip token key limit i i1 Hkey H1.
    rewrite (path_blocked rl now ip token key limit Hkey _ _ H1).
    by apply InMemory_IsBlocked_true in H1.
Qed.

(** C4. When the key is not blocked and [Increment] returns a count above
    the limit, [CheckLimit] calls [SetBlock] on the key for the block
    duration (as the third and last call it makes), and, when [SetBlock]
    succeeds, returns the rejection: not allowed, nothing remaining, reset
    time one block duration ahead, blocked. *)
Theorem limit_exceeded_sets_block {St : Type} `{!Storage St} (rl : RateLimiter)
    (now : Time) (ip token key : string) (limit count : Z)
    (s : Recorder St) (s1 s2 : St) :
  getKeyAndLimit rl ip token = (key, limit) →
  IsBlocked now key (inner s) = ((false, None), s1) →
  Increment now key Second s1 = ((count, None), s2) →
  count > limit →
  calls (CheckLimit rl now ip token s).2 =
    (calls s ++ [CallIsBlocked key; CallIncrement key Second;
                 CallSetBlock key (blockDuration rl)])%list
  ∧ inner (CheckLimit rl now ip token s).2 = (SetBlock now key (blockDuration rl) s2).2
  ∧ ((SetBlock now key (blockDuration rl) s2).1 = None →
     (CheckLimit rl now ip token s).1 =
       (Some {| Allowed := false; Remaining := 0;
                ResetTime := now + blockDuration rl; Blocked := true |}, None)).
Proof.
  intros Hkey H1 H2 Hgt.
  apply (recorded_IsBlocked now key s) in H1.
  apply (recorded_Increment now key Second
           (mkRecorder s1 (calls s ++ [CallIsBlocked key]))) in H2.
  cbn [inner calls] in H2.
  destruct (SetBlock now key (blockDuration rl) s2) as [err s3] eqn:H3.
  apply (recorded_SetBlock now key _
           (mkRecorder s2 ((calls s ++ [CallIsBlocked key]) ++ [CallIncrement key Second])))
    in H3.
  cbn [inner calls] in H3.
  destruct err as [e|].
  - rewrite (path_SetBlock_fails rl now ip token key limit Hkey _ _ _ _ _ _ H1 H2 Hgt H3).
    cbn [fst snd inner calls]. by rewrite <- !app_assoc.
  - rewrite (path_exceeded rl now ip token key limit Hkey _ _ _ _ _ H1 H2 Hgt H3).
    cbn [fst snd inner calls]. by rewrite <- !app_assoc.
Qed.

(** C5. When the key is not blocked and [Increment] returns a count that
    does not exceed the limit, [CheckLimit] returns the admission: allowed,
    not blocked, reset time one second ahead, and as remaining quota the
    difference limit - count, computed as the engine computes it (on Go
    integers) and raised to 0 when negative.  The remaining quota is never
    negative, and it is max(0, limit - count) over the integers whenever
    that difference is a Go integer, which it is for every count that is
    not negative. *)
Theorem within_limit_allowed {St : Type} `{!Storage St} (rl : RateLimiter)
    (now : Time) (ip token key : string) (limit count : Z) (s s1 s2 : St) :
  getKeyAndLimit rl ip token = (key, limit) →
  IsBlocked now key s = ((false, None), s1) →
  Increment now key Second s1 = ((count, None), s2) →
  count <= limit →
  ∃ remaining,
    CheckLimit rl now ip token s =
      ((Some {| Allowed := true; Remaining := remaining;
                ResetTime := now + Second; Blocked := false |}, None), s2)
    ∧ remaining = Z.max 0 (wrap64 (limit - count))
    ∧ 0 <= remaining
    ∧ (in_int64 (limit - count) → remaining = Z.max 0 (limit - count))
    ∧ (in_int64 limit → 0 <= count → remaining = Z.max 0 (limit - count)).
Proof.
  intros Hkey H1 H2 Hle. eexists. split_and!.
  - apply (path_allowed rl now ip token key limit Hkey _ _ _ _ H1 H2 Hle).
  - done.
  - lia.
  - intros Hr. by rewrite wrap64_in_range.
  - intros Hl Hc. rewrite wrap64_in_range; [done|].
    unfold in_int64, min_int64, max_int64 in *. lia.
Qed.

(** C9. Every result [CheckLimit] returns, on whichever of its three
    returning paths, has [Allowed] equal to the negation of [Blocked] and a
    remaining quota that is not negative; when [Allowed] is false the
    remaining quota is exactly 0. *)
Theorem result_invariant {St : Type} `{!Storage St} (rl : RateLimiter)
    (now : Time) (ip token : string) (s : St) (res : LimitResult) :
  (CheckLimit rl now ip token s).1.1 = Some res →
  (CheckLimit rl now ip token s).1.2 = None
  ∧ Allowed res = negb (Blocked res)
  ∧ 0 <= Remaining res
  ∧ (Allowed res = false → Remaining res = 0).
Proof.
  unfold CheckLimit. destruct (getKeyAndLimit rl ip token) as [key limit].
  destruct (IsBlocked now key s) as [[b [e|]] s1]; simpl; [done|].
  destruct b; simpl; [by intros [= <-]|].
  destruct (Increment now key Second s1) as [[c [e|]] s2]; simpl; [done|].
  case_bool_decide.
  - destruct (SetBlock now key (blockDuration rl) s2) as [[e|] s3]; simpl; [done|].
    by intros [= <-].
  - intros [= <-]; simpl. split_and!; [done|done| |done].
    case_bool_decide; lia.
Qed.

(** C6. [CheckLimit] returns no result exactly when it returns an error.
    When [IsBlocked], [Increment] or [SetBlock] fails, the call returns the
    storage's error, wrapped, and no decision, and makes no further call to
    the storage.  When [SetBlock] fails after [Increment] succeeded the
    storage is left as those calls left it, with nothing undone: on the
    Redis storage the key still holds the count [Increment] returned. *)
Theorem storage_errors_propagate :
  (∀ (St : Type) (H : Storage St) (rl : RateLimiter) (now : Time)
     (ip token : string) (s : St),
     (CheckLimit rl now ip token s).1.1 = None ↔
     (CheckLimit rl now ip token s).1.2 ≠ None)
  ∧ (∀ (St : Type) (H : Storage St) (rl : RateLimiter) (now : Time)
       (ip token key : string) (limit : Z) (s : Recorder St) (s1 : St)
       (b : bool) (e : error),
     getKeyAndLimit rl ip token = (key, limit) →
     IsBlocked now key (inner s) = ((b, Some e), s1) →
     CheckLimit rl now ip token s =
       ((None, Some (Errorf "failed to check block status: " e)),
        mkRecorder s1 (calls s ++ [CallIsBlocked key])))
  ∧ (∀ (St : Type) (H : Storage St) (rl : RateLimiter) (now : Time)
       (ip token key : string) (limit : Z) (s : Recorder St) (s1 s2 : St)
       (count : Z) (e : error),
     getKeyAndLimit rl ip token = (key, limit) →
     IsBlocked now key (inner s) = ((false, None), s1) →
     Increment now key Second s1 = ((count, Some e), s2) →
     CheckLimit rl now ip token s =
       ((None, Some (Errorf "failed to increment counter: " e)),
        mkRecorder s2 (calls s ++ [CallIsBlocked key; CallIncrement key Second])))
  ∧ (∀ (St : Type) (H : Storage St) (rl : RateLimiter) (now : Time)
       (ip token key : string) (limit : Z) (s : Recorder St) (s1 s2 s3 : St)
       (count : Z) (e : error),
     getKeyAndLimit rl ip token = (key, limit) →
     IsBlocked now key (inner s) = ((false, None), s1) →
     Increment now key Second s1 = ((count, None), s2) →
     count > limit →
     SetBlock now key (blockDuration rl) s2 = (Some e, s3) →
     CheckLimit rl now ip token s =
       ((None, Some (Errorf "failed to set block: " e)),
        mkRecorder s3 (calls s ++ [CallIsBlocked key; CallIncrement key Second;
                                   CallSetBlock key (blockDuration rl)])))
  ∧ (∀ (rl : RateLimiter) (now : Time) (ip token key : string) (limit : Z)
       (r r1 r2 r3 : RedisStorage) (count : Z) (e : error),
     getKeyAndLimit rl ip token = (key, limit) →
     IsBlocked now key r = ((false, None), r1) →
     Increment now key Second r1 = ((count, None), r2) →
     count > limit →
     SetBlock now key (blockDuration rl) r2 = (Some e, r3) →
     CheckLimit rl now ip token r =
       ((None, Some (Errorf "failed to set block: " e)), r3)
     ∧ counter now key r3 = Some (mkEntry (RInt count) (Some (now + Second)))).
Proof.
  split_and!.
  - intros St H rl now ip token s. unfold CheckLimit.
    destruct (getKeyAndLimit rl ip token) as [key limit].
    destruct (IsBlocked now key s) as [[b [e|]] s1]; simpl; [done|].
    destruct b; simpl; [split; [done|by intros []]|].
    destruct (Increment now key Second s1) as [[c [e|]] s2]; simpl; [done|].
    case_bool_decide; simpl; [|split; [done|by intros []]].
    destruct (SetBlock now key (blockDuration rl) s2) as [[e|] s3]; simpl; [done|].
    split; [done|by intros []].
  - intros St H rl now ip token key limit s s1 b e Hkey H1.
    apply (recorded_IsBlocked now key s) in H1.
    by rewrite (path_IsBlocked_fails rl now ip token key limit Hkey _ _ _ _ H1).
  - intros St H rl now ip token key limit s s1 s2 count e Hkey H1 H2.
    apply (recorded_IsBlocked now key s) in H1.
    apply (recorded_Increment now key Second
             (mkRecorder s1 (calls s ++ [CallIsBlocked key]))) in H2.
    cbn [inner calls] in H2.
    rewrite (path_Increment_fails rl now ip token key limit Hkey _ _ _ _ _ H1 H2).
    by rewrite <- app_assoc.
  - intros St H rl now ip token key limit s s1 s2 s3 count e Hkey H1 H2 Hgt H3.
    apply (recorded_IsBlocked now key s) in H1.
    apply (recorded_Increment now key Second
             (mkRecorder s1 (calls s ++ [CallIsBlocked key]))) in H2.
    cbn [inner calls] in H2.
    apply (recorded_SetBlock now key _
             (mkRecorder s2 ((calls s ++ [CallIsBlocked key]) ++ [CallIncrement key Second])))
      in H3.
    cbn [inner calls] in H3.
    rewrite (path_SetBlock_fails rl now ip token key limit Hkey _ _ _ _ _ _ H1 H2 Hgt H3).
    by rewrite <- !app_assoc.
  - intros rl now ip token key limit r r1 r2 r3 count e Hkey H1 H2 Hgt H3.
    split; [by apply (path_SetBlock_fails rl now ip token key limit Hkey _ _ _ _ _ _ H1 H2)|].
    apply RedisIncrement_stored in H2. apply RedisSetBlock_fails_server in H3.
    unfold counter in *. by rewrite H3.
Qed.

(** C8. For all strings ip and token, equal or not, the key "ip:" ++ ip of an
    IP identity differs from the key "token:" ++ token of a token identity,
    so the keys [getKeyAndLimit] resolves for the two identities differ.
    Every storage call of a check is about the key the check resolved.  On
    the Redis storage and on the in-memory storage a check leaves the count
    and the block flag of every other key as they were, and on the Redis
    storage its outcome is the same in any two states that agree on the
    connection and on the count and block flag of its own key: a check for a
    token identity neither reads nor writes the state of an IP identity, and
    conversely. *)
Theorem namespaces_never_collide :
  (∀ ip token : string, "ip:" +:+ ip ≠ "token:" +:+ token)
  ∧ (∀ (rl rl' : RateLimiter) (ip ip' token : string),
       token ≠ "" →
       (getKeyAndLimit rl ip "").1 = "ip:" +:+ ip
       ∧ (getKeyAndLimit rl' ip' token).1 = "token:" +:+ token
       ∧ (getKeyAndLimit rl ip "").1 ≠ (getKeyAndLimit rl' ip' token).1)
  ∧ (∀ (St : Type) (H : Storage St) (rl : RateLimiter) (now : Time)
       (ip token : string) (s : Recorder St),
       ∃ new, calls (CheckLimit rl now ip token s).2 = (calls s ++ new)%list
            ∧ Forall (λ c, call_key c = Some (getKeyAndLimit rl ip token).1) new)
  ∧ (∀ (rl : RateLimiter) (now : Time) (ip ip' token : string)
       (r : RedisStorage) (t : Time),
       token ≠ "" →
       (counter t ("ip:" +:+ ip) (CheckLimit rl now ip' token r).2
          = counter t ("ip:" +:+ ip) r
        ∧ block_flag t ("ip:" +:+ ip) (CheckLimit rl now ip' token r).2
          = block_flag t ("ip:" +:+ ip) r)
       ∧ (counter t ("token:" +:+ token) (CheckLimit rl now ip "" r).2
          = counter t ("token:" +:+ token) r
        ∧ block_flag t ("token:" +:+ token) (CheckLimit rl now ip "" r).2
          = block_flag t ("token:" +:+ token) r))
  ∧ (∀ (rl : RateLimiter) (now : Time) (ip token : string) (r r' : RedisStorage),
       same_view now (getKeyAndLimit rl ip token).1 r r' →
       (CheckLimit rl now ip token r).1 = (CheckLimit rl now ip token r').1)
  ∧ (∀ (rl : RateLimiter) (now : Time) (ip ip' token : string) (i : InMemoryStorage),
       token ≠ "" →
       (counts (CheckLimit rl now ip' token i).2 !! ("ip:" +:+ ip)
          = counts i !! ("ip:" +:+ ip)
        ∧ blocked (CheckLimit rl now ip' token i).2 !! ("ip:" +:+ ip)
          = blocked i !! ("ip:" +:+ ip))
       ∧ (counts (CheckLimit rl now ip "" i).2 !! ("token:" +:+ token)
          = counts i !! ("token:" +:+ token)
        ∧ blocked (CheckLimit rl now ip "" i).2 !! ("token:" +:+ token)
          = blocked i !! ("token:" +:+ token))).
Proof.
  split_and!.
  - apply ip_key_not_token_key.
  - intros rl rl' ip ip' token Ht.
    rewrite getKeyAndLimit_ip, (getKeyAndLimit_token rl' ip' token Ht).
    split_and!; [done|done|apply ip_key_not_token_key].
  - intros St H rl now ip token s. apply CheckLimit_calls.
  - intros rl now ip ip' token r t Ht. split.
    + apply redis_CheckLimit_other_key.
      rewrite (getKeyAndLimit_token rl ip' token Ht). apply ip_key_not_token_key.
    + apply redis_CheckLimit_other_key.
      rewrite getKeyAndLimit_ip. intros Heq. symmetry in Heq.
      by apply ip_key_not_token_key in Heq.
  - apply redis_CheckLimit_view.
  - intros rl now ip ip' token i Ht. split.
    + apply InMemory_CheckLimit_frame.
      rewrite (getKeyAndLimit_token rl ip' token Ht). apply ip_key_not_token_key.
    + apply InMemory_CheckLimit_frame.
      rewrite getKeyAndLimit_ip. intros Heq. symmetry in Heq.
      by apply ip_key_not_token_key in Heq.
Qed.

(** A [SetBlock] on a healthy Redis storage succeeds and leaves the key
    blocked at the instant of the call, whatever the duration; the counts
    are as they were. *)
Lemma redis_SetBlock_flag (now : Time) (key : string) (dur : Duration) (r : RedisStorage) :
  healthy r →
  (SetBlock now key dur r).1 = None
  ∧ healthy (SetBlock now key dur r).2
  ∧ is_Some (block_flag now key (SetBlock now key dur r).2)
  ∧ ∀ t k, counter t k (SetBlock now key dur r).2 = counter t k r.
Proof.
  intros Hh. destruct (redis_SetBlock now key dur r Hh) as [w Hw].
  pose proof (SET_set_args_live now ("blocked:" +:+ key) "1" dur (server (client r))) as Hl.
  destruct (SET_set_args now ("blocked:" +:+ key) "1" dur (server (client r))) as [w' Hw'].
  rewrite Hw' in Hl. cbn [snd] in Hl.
  simpl in Hw. unfold RedisSetBlock in Hw.
  rewrite (healthy_round_trip r _ Hh), Hw' in Hw. simpl in Hw.
  injection Hw as Hw. apply (f_equal (λ m, m !! ("blocked:" +:+ key))) in Hw.
  rewrite !lookup_insert_eq in Hw. injection Hw as ->.
  destruct (redis_SetBlock now key dur r Hh) as [w'' Hw'']. rewrite Hw''. cbn [fst snd].
  assert (w'' = w) as ->.
  { simpl in Hw''. unfold RedisSetBlock in Hw''.
    rewrite (healthy_round_trip r _ Hh), Hw' in Hw''. simpl in Hw''.
    injection Hw'' as Hw''. apply (f_equal (λ m, m !! ("blocked:" +:+ key))) in Hw''.
    rewrite !lookup_insert_eq in Hw''. by injection Hw'' as ->. }
  split_and!; [done|by apply set_server_healthy|done|].
  intros t k. by rewrite counter_set_block.
Qed.

(** C1. On the Redis storage, with a client that is open and loses no round
    trip: for a limit [L] with [1 <= L] (and [L + 1] still a 64-bit count)
    and a key that is fresh at the first call (no live count, no live block
    flag), a run of [L + 1] sequential calls for that identity, each made at
    most one window after the one before, returns [L + 1] results; the
    [i]-th of the first [L] is allowed and not blocked with [L - i]
    remaining, so the remaining quota goes down by one from [L - 1] and is 0
    exactly at the [L]-th call; the [(L + 1)]-th is not allowed, blocked,
    with 0 remaining; and [SetBlock] is called exactly once in the run. *)
Theorem fresh_key_run (rl : RateLimiter) (ip token key : string) (L : Z)
    (t0 : Time) (gaps : list Duration) (r : RedisStorage) :
  getKeyAndLimit rl ip token = (key, L) →
  1 <= L → L < max_int64 →
  healthy r → fresh t0 key r →
  Z.of_nat (length gaps) = L →
  Forall (λ g, 0 <= g <= Second) gaps →
  ∃ (results : list (option LimitResult * option error)) (r' : RedisStorage)
    (new : list call),
    CheckLimitSeq rl ip token (arrivals t0 gaps) (mkRecorder r [])
      = (results, mkRecorder r' new)
    ∧ length (arrivals t0 gaps) = S (Z.to_nat L)
    ∧ length results = S (Z.to_nat L)
    ∧ (∀ (i : nat) (t : Time), Z.of_nat i < L → arrivals t0 gaps !! i = Some t →
         results !! i =
           Some (Some {| Allowed := true; Remaining := L - (Z.of_nat i + 1);
                         ResetTime := t + Second; Blocked := false |}, None))
    ∧ (∀ t : Time, arrivals t0 gaps !! Z.to_nat L = Some t →
         results !! Z.to_nat L =
           Some (Some {| Allowed := false; Remaining := 0;
                         ResetTime := t + blockDuration rl; Blocked := true |}, None))
    ∧ length (List.filter is_SetBlock new) = 1%nat
    ∧ length (List.filter is_Increment new) = S (Z.to_nat L).
Proof.
  intros Hkey HL1 HLmax Hh [Hc Hb] Hlen Hgaps.
  destruct (paced_run rl ip token key L
              (λ n t r, healthy r ∧ block_flag t key r = None ∧ holds_count t key r n)
              (redis_run_step rl ip token key L Hkey HLmax)
              gaps t0 0 r [])
    as (r' & new & Hrun & Hsb & Hinc); [lia|lia|done| |].
  { split_and!; [done|done|]. unfold holds_count. by rewrite Hc. }
  assert (Hlen' : length (arrivals t0 gaps) = S (Z.to_nat L)).
  { rewrite arrivals_length. lia. }
  destruct (outcomes_from_fresh rl L (arrivals t0 gaps)) as (H1 & H2 & H3); [lia|done|].
  exists (outcomes_from rl L 1 (arrivals t0 gaps)), r', new.
  split_and!; [done|done|done|done|done|done|lia].
Qed.

(** C10. On the Redis storage, with a client that is open and loses no
    round trip: when the resolved limit is zero or negative, the first call
    on a fresh key is rejected (not allowed, blocked, nothing remaining).
    The call increments the counter to 1, which exceeds the limit, and calls
    [SetBlock]; afterwards the key holds the count 1 and is blocked. *)
Theorem nonpositive_limit_rejects (rl : RateLimiter) (ip token key : string) (L : Z)
    (t : Time) (r : RedisStorage) (log : list call) :
  getKeyAndLimit rl ip token = (key, L) →
  L <= 0 →
  healthy r → fresh t key r →
  ∃ r' : RedisStorage,
    CheckLimit rl t ip token (mkRecorder r log) =
      ((Some {| Allowed := false; Remaining := 0;
                ResetTime := t + blockDuration rl; Blocked := true |}, None),
       mkRecorder r' (log ++ [CallIsBlocked key; CallIncrement key Second;
                              CallSetBlock key (blockDuration rl)]))
    ∧ counter t key r' = Some (mkEntry (RInt 1) (Some (t + Second)))
    ∧ is_Some (block_flag t key r').
Proof.
  intros Hkey HL Hh [Hc Hb].
  pose proof (redis_IsBlocked t key r Hh) as H1. rewrite Hb in H1.
  rewrite bool_decide_eq_false_2 in H1 by (intros [? ?]; done).
  assert (Hn : holds_count t key r 0) by (unfold holds_count; by rewrite Hc).
  pose proof (redis_Increment t key r 0 Hh Hn ltac:(done)) as H2.
  set (r1 := set_server _ r) in H2.
  assert (Hh1 : healthy r1) by by apply set_server_healthy.
  destruct (redis_SetBlock_flag t key (blockDuration rl) r1 Hh1) as (He & _ & Hflag & Hcnt).
  destruct (SetBlock t key (blockDuration rl) r1) as [err r2] eqn:H3.
  cbn [fst snd] in *. subst err.
  apply (recorded_IsBlocked t key (mkRecorder r log)) in H1.
  apply (recorded_Increment t key Second (mkRecorder r (log ++ [CallIsBlocked key]))) in H2.
  apply (recorded_SetBlock t key _
           (mkRecorder r1 ((log ++ [CallIsBlocked key]) ++ [CallIncrement key Second])))
    in H3.
  cbn [inner calls] in H1, H2, H3.
  exists r2. split_and!;
    [|rewrite Hcnt; apply counter_set_count; unfold Second; lia|done].
  rewrite (path_exceeded rl t ip token key L Hkey _ _ _ _ _ H1 H2 ltac:(lia) H3).
  by rewrite <- !app_assoc.
Qed.

(** * The claims on the configurations of the tests *)

Lemma fresh_key_run_witness :
  ∃ results r' new,
    CheckLimitSeq test_policy "A" "" (arrivals 0 [1; 1; 1]) (mkRecorder empty_redis [])
      = (results, mkRecorder r' new)
    ∧ length (arrivals 0 [1; 1; 1]) = 4%nat
    ∧ length results = 4%nat
    ∧ (∀ (i : nat) (t : Time), Z.of_nat i < 3 → arrivals 0 [1; 1; 1] !! i = Some t →
         results !! i =
           Some (Some {| Allowed := true; Remaining := 3 - (Z.of_nat i + 1);
                         ResetTime := t + Second; Blocked := false |}, None))
    ∧ (∀ t : Time, arrivals 0 [1; 1; 1] !! 3%nat = Some t →
         results !! 3%nat =
           Some (Some {| Allowed := false; Remaining := 0;
                         ResetTime := t + blockDuration test_policy; Blocked := true |},
                 None))
    ∧ length (List.filter is_SetBlock new) = 1%nat
    ∧ length (List.filter is_Increment new) = 4%nat.
Proof.
  apply (fresh_key_run test_policy "A" "" "ip:A" 3 0 [1; 1; 1] empty_redis).
  - reflexivity.
  - lia.
  - reflexivity.
  - split; reflexivity.
  - split; reflexivity.
  - reflexivity.
  - repeat constructor; unfold Second; lia.
Defined.

Lemma getKeyAndLimit_token_priority_witness :
  getKeyAndLimit test_policy "192.168.1.1" "abc123" = ("token:abc123", 50)
  ∧ getKeyAndLimit test_policy "192.168.1.1" "xyz789" = ("token:xyz789", 100)
  ∧ getKeyAndLimit test_policy "192.168.1.1" "" = ("ip:192.168.1.1", 3).
Proof.
  split_and!.
  - destruct (getKeyAndLimit_token_priority test_policy "192.168.1.1" "abc123")
      as [Htoken _].
    destruct Htoken as (Hoverride & _ & _); [discriminate|].
    apply Hoverride. reflexivity.
  - destruct (getKeyAndLimit_token_priority test_policy "192.168.1.1" "xyz789")
      as [Htoken _].
    destruct Htoken as (_ & Hdefault & _); [discriminate|].
    apply Hdefault. reflexivity.
  - destruct (getKeyAndLimit_token_priority test_policy "192.168.1.1" "")
      as [_ Hip].
    apply Hip. reflexivity.
Defined.

Lemma blocked_key_short_circuits_witness :
  CheckLimit test_policy 5 "A" "" (mkRecorder blocked_redis []) =
    ((Some {| Allowed := false; Remaining := 0;
              ResetTime := 5 + 10 * Second; Blocked := true |}, None),
     mkRecorder blocked_redis [CallIsBlocked "ip:A"]).
Proof.
  destruct blocked_key_short_circuits as [Hany _].
  apply (Hany RedisStorage _ test_policy 5 "A" "" "ip:A" 3
           (mkRecorder blocked_redis []) blocked_redis).
  - reflexivity.
  - reflexivity.
Defined.

Lemma limit_exceeded_sets_block_witness :
  ∃ s3 : RedisStorage,
    CheckLimit zero_policy 0 "A" "" (mkRecorder empty_redis []) =
      ((Some {| Allowed := false; Remaining := 0;
                ResetTime := 0 + 10 * Second; Blocked := true |}, None),
       mkRecorder s3 [CallIsBlocked "ip:A"; CallIncrement "ip:A" Second;
                      CallSetBlock "ip:A" (10 * Second)]).
Proof.
  destruct (limit_exceeded_sets_block zero_policy 0 "A" "" "ip:A" 0 1
              (mkRecorder empty_redis []) empty_redis
              (Increment 0 "ip:A" Second empty_redis).2)
    as (Hcalls & Hinner & Hres); [reflexivity|reflexivity|reflexivity|reflexivity|].
  specialize (Hres eq_refl).
  destruct (CheckLimit zero_policy 0 "A" "" (mkRecorder empty_redis []))
    as [out [s3 log]].
  simpl in Hcalls, Hres. subst. by exists s3.
Defined.

Lemma within_limit_allowed_witness :
  ∃ (remaining : Z) (s2 : InMemoryStorage),
    CheckLimit test_policy 0 "A" "" NewInMemoryStorage =
      ((Some {| Allowed := true; Remaining := remaining;
                ResetTime := 0 + Second; Blocked := false |}, None), s2)
    ∧ remaining = 2.
Proof.
  destruct (within_limit_allowed test_policy 0 "A" "" "ip:A" 3 1
              NewInMemoryStorage NewInMemoryStorage
              (Increment 0 "ip:A" Second NewInMemoryStorage).2)
    as (remaining & Hcall & Hrem & _); [reflexivity|reflexivity|reflexivity|lia|].
  exists remaining, (Increment 0 "ip:A" Second NewInMemoryStorage).2.
  split; [exact Hcall|]. rewrite Hrem. reflexivity.
Defined.

Lemma storage_errors_propagate_witness :
  ∃ r3 : RedisStorage,
    CheckLimit zero_policy 0 "A" "" flaky_redis =
      ((None, Some (Errorf "failed to set block: "
                      (Errorf "failed to set block: " (ErrNew "i/o timeout")))), r3)
    ∧ counter 0 "ip:A" r3 = Some (mkEntry (RInt 1) (Some (0 + Second))).
Proof.
  destruct storage_errors_propagate as (_ & _ & _ & _ & Hredis).
  eexists.
  apply (Hredis zero_policy 0 "A" "" "ip:A" 0 flaky_redis
           (IsBlocked 0 "ip:A" flaky_redis).2
           (Increment 0 "ip:A" Second (IsBlocked 0 "ip:A" flaky_redis).2).2
           _ 1 (Errorf "failed to set block: " (ErrNew "i/o timeout")));
    reflexivity.
Defined.

Lemma namespaces_never_collide_witness :
  (getKeyAndLimit test_policy "abc123" "").1 = "ip:abc123"
  ∧ (getKeyAndLimit test_policy "abc123" "abc123").1 = "token:abc123"
  ∧ (getKeyAndLimit test_policy "abc123" "").1
    ≠ (getKeyAndLimit test_policy "abc123" "abc123").1.
Proof.
  destruct namespaces_never_collide as (_ & Hkeys & _).
  apply (Hkeys test_policy test_policy "abc123" "abc123" "abc123"). discriminate.
Defined.

Lemma result_invariant_witness :
  (CheckLimit test_policy 5 "A" "" blocked_redis).1.2 = None
  ∧ false = negb true ∧ 0 <= 0 ∧ (false = false → 0 = 0).
Proof.
  apply (result_invariant test_policy 5 "A" "" blocked_redis
           {| Allowed := false; Remaining := 0;
              ResetTime := 5 + 10 * Second; Blocked := true |}).
  reflexivity.
Defined.

Lemma nonpositive_limit_rejects_witness :
  ∃ r' : RedisStorage,
    CheckLimit zero_policy 0 "A" "" (mkRecorder empty_redis []) =
      ((Some {| Allowed := false; Remaining := 0;
                ResetTime := 0 + blockDuration zero_policy; Blocked := true |}, None),
       mkRecorder r' ([] ++ [CallIsBlocked "ip:A"; CallIncrement "ip:A" Second;
                             CallSetBlock "ip:A" (blockDuration zero_policy)]))
    ∧ counter 0 "ip:A" r' = Some (mkEntry (RInt 1) (Some (0 + Second)))
    ∧ is_Some (block_flag 0 "ip:A" r').
Proof.
  apply (nonpositive_limit_rejects zero_policy "A" "" "ip:A" 0 0 empty_redis []).
  - reflexivity.
  - lia.
  - split; reflexivity.
  - split; reflexivity.
Defined.

(** * The run on the in-memory storage, and the scenarios *)

(** The run of [L + 1] calls on the in-memory storage, from a key with no
    count and no block: the same results as on the Redis storage, whatever
    the instants of the calls, since the counts of this storage never
    expire. *)
Lemma inmemory_fresh_key_run (rl : RateLimiter) (ip token key : string) (L : Z)
    (t0 : Time) (gaps : list Duration) (i : InMemoryStorage) :
  getKeyAndLimit rl ip token = (key, L) →
  L < max_int64 →
  counts i !! key = None → blocked i !! key = None →
  Z.of_nat (length gaps) = L →
  Forall (λ g, 0 <= g <= Second) gaps →
  ∃ (i' : InMemoryStorage) (new : list call),
    CheckLimitSeq rl ip token (arrivals t0 gaps) (mkRecorder i [])
      = (outcomes_from rl L 1 (arrivals t0 gaps), mkRecorder i' new)
    ∧ length (List.filter is_SetBlock new) = 1%nat.
Proof.
  intros Hkey HLmax Hc Hb Hlen Hgaps.
  destruct (paced_run rl ip token key L
              (λ n t i, blocked i !! key = None ∧ default 0 (counts i !! key) = n)
              (inmemory_run_step rl ip token key L Hkey HLmax)
              gaps t0 0 i [])
    as (i' & new & Hrun & Hsb & _); [lia|lia|done|by rewrite Hc|].
  by exists i', new.
Qed.

(** First scenario of the specification: three requests from the address A
    are allowed with 2, 1 and 0 remaining, the fourth is rejected and
    blocks A, and the fifth is rejected without a new increment. *)
Example scenario_ip_limit :
  let run := CheckLimitSeq test_policy "A" "" [0; 1; 2; 3; 4] (mkRecorder empty_redis []) in
  decisions run.1 =
    [Some (true, 2, false); Some (true, 1, false); Some (true, 0, false);
     Some (false, 0, true); Some (false, 0, true)]
  ∧ length (List.filter is_Increment (calls run.2)) = 4%nat
  ∧ length (List.filter is_SetBlock (calls run.2)) = 1%nat.
Proof. vm_compute. done. Qed.

(** Second scenario: at count 25 the token abc123, whose limit is 50, has 25
    left, and the token xyz789, which has no override, has 75 left. *)
Example scenario_token_limits :
  let i := {| counts := {["token:abc123" := 24; "token:xyz789" := 24]}; blocked := ∅ |} in
  decisions [(CheckLimit test_policy 0 "A" "abc123" i).1;
             (CheckLimit test_policy 0 "A" "xyz789" i).1] =
    [Some (true, 25, false); Some (true, 75, false)].
Proof. vm_compute. done. Qed.

(** Third scenario: while the address A is blocked, a request from A that
    bears the token abc123 is allowed. *)
Example scenario_token_priority :
  decisions [(CheckLimit test_policy 5 "A" "" blocked_redis).1;
             (CheckLimit test_policy 5 "A" "abc123" blocked_redis).1] =
    [Some (false, 0, true); Some (true, 49, false)].
Proof. vm_compute. done. Qed.

(** Once the block duration has passed, the next request of the key is
    allowed again and the count restarts. *)
Example scenario_block_expires :
  decisions (CheckLimitSeq test_policy "A" ""
               [0; 1; 2; 3; 3 + 10 * Second; 4 + 10 * Second] empty_redis).1 =
    [Some (true, 2, false); Some (true, 1, false); Some (true, 0, false);
     Some (false, 0, true); Some (false, 0, true); Some (true, 2, false)].
Proof. vm_compute. done. Qed.

(** The integration tests: three requests of an address pass and the fourth
    does not; two requests of the token test_token pass and the third does
    not; after the address is exhausted, the token still passes. *)
Example integration_ip_based :
  decisions (CheckLimitSeq integration_policy "192.168.1.1" "" [0; 0; 0; 0]
               NewInMemoryStorage).1 =
    [Some (true, 2, false); Some (true, 1, false); Some (true, 0, false);
     Some (false, 0, true)].
Proof. vm_compute. done. Qed.

Example integration_token_based :
  decisions (CheckLimitSeq integration_policy "192.168.1.1" "test_token" [0; 0; 0]
               NewInMemoryStorage).1 =
    [Some (true, 1, false); Some (true, 0, false); Some (false, 0, true)].
Proof. vm_compute. done. Qed.

Example integration_token_priority :
  let exhausted :=
    (CheckLimitSeq integration_policy "192.168.1.1" "" [0; 0; 0; 0] NewInMemoryStorage).2 in
  decisions [(CheckLimit integration_policy 0 "192.168.1.1" "test_token" exhausted).1] =
    [Some (true, 1, false)].
Proof. vm_compute. done. Qed.

(** The unit tests of [getKeyAndLimit]. *)
Example unit_getKeyAndLimit :
  let rl := New {| DefaultIPLimit := 10; DefaultTokenLimit := 100;
                   BlockDuration := 300 * Second; TokenLimits := {["abc123" := 50]} |} in
  getKeyAndLimit rl "192.168.1.1" "" = ("ip:192.168.1.1", 10)
  ∧ getKeyAndLimit rl "192.168.1.1" "abc123" = ("token:abc123", 50)
  ∧ getKeyAndLimit rl "192.168.1.1" "xyz789" = ("token:xyz789", 100).
Proof. vm_compute. done. Qed.

(** * Further properties of the Redis storage *)

Lemma set_ttl_bounds (d : Duration) :
  Millisecond <= d → d - Millisecond < set_ttl d <= d.
Proof.
  intros Hd. unfold set_ttl, usePrecise, formatMs, formatSec, Millisecond, Second in *.
  rewrite !(bool_decide_eq_true_2 (0 < d)) by lia.
  rewrite (bool_decide_eq_false_2 (d < 1000000)) by lia. simpl.
  destruct (bool_decide (d < 1000000000)) eqn:Hs; simpl.
  - rewrite Z.quot_div_nonneg by lia.
    pose proof (Z.div_mod d 1000000 ltac:(lia)).
    pose proof (Z.mod_pos_bound d 1000000 ltac:(lia)). lia.
  - destruct (bool_decide (d `rem` 1000000000 = 0)) eqn:Hr; simpl.
    + apply bool_decide_eq_true_1 in Hr.
      pose proof (Z.quot_rem' d 1000000000). lia.
    + rewrite Z.quot_div_nonneg by lia.
      pose proof (Z.div_mod d 1000000 ltac:(lia)).
      pose proof (Z.mod_pos_bound d 1000000 ltac:(lia)). lia.
Qed.

Lemma SET_positive (now : Time) (k v : string) (dur : Duration) (d : gmap string entry) :
  0 < dur →
  SET now k v (set_args dur) d
  = (Status "OK", <[k := mkEntry (RStr v) (Some (now + set_ttl dur))]> d).
Proof.
  intros Hpos. unfold set_args, set_ttl. rewrite bool_decide_eq_true_2 by done.
  destruct (usePrecise dur); simpl.
  - pose proof (formatMs_pos dur Hpos). by rewrite bool_decide_eq_false_2 by lia.
  - pose proof (formatSec_pos dur Hpos). by rewrite bool_decide_eq_false_2 by lia.
Qed.

Lemma redis_SetBlock_positive (now : Time) (key : string) (dur : Duration)
    (r : RedisStorage) :
  healthy r → 0 < dur →
  SetBlock now key dur r =
    (None, set_server (<["blocked:" +:+ key := mkEntry (RStr "1") (Some (now + set_ttl dur))]>
                         (server (client r))) r).
Proof.
  intros Hh Hpos. simpl. unfold RedisSetBlock.
  rewrite (healthy_round_trip r _ Hh), SET_positive by done. simpl.
  by destruct r as [[d o c]].
Qed.

Lemma redis_SetBlock_no_expiry (now : Time) (key : string) (dur : Duration)
    (r : RedisStorage) :
  healthy r → dur <= 0 → dur ≠ KeepTTL →
  SetBlock now key dur r =
    (None, set_server (<["blocked:" +:+ key := mkEntry (RStr "1") None]>
                         (server (client r))) r).
Proof.
  intros Hh Hle Hne. simpl. unfold RedisSetBlock.
  rewrite (healthy_round_trip r _ Hh). unfold set_args.
  rewrite bool_decide_eq_false_2 by lia. rewrite bool_decide_eq_false_2 by done.
  simpl. by destruct r as [[d o c]].
Qed.

Lemma block_flag_set_block (t : Time) (key : string) (e : entry) (d : gmap string entry)
    (r : RedisStorage) :
  block_flag t key (set_server (<["blocked:" +:+ key := e]> d) r)
  = if expired t e then None else Some e.
Proof. unfold block_flag; simpl. by rewrite live_insert_eq. Qed.

(** X1. A block set for at least a millisecond holds from the call on and
    is gone, by itself, once the duration has passed: on a healthy Redis
    storage [SetBlock] succeeds, [IsBlocked] answers true at every instant
    up to now + duration - 1ms, and false at every instant after
    now + duration. *)
Theorem block_expires_by_itself (now : Time) (key : string) (dur : Duration)
    (r : RedisStorage) :
  healthy r → Millisecond <= dur →
  (SetBlock now key dur r).1 = None
  ∧ (∀ t, t <= now + dur - Millisecond →
       (IsBlocked t key (SetBlock now key dur r).2).1 = (true, None))
  ∧ (∀ t, now + dur < t →
       (IsBlocked t key (SetBlock now key dur r).2).1 = (false, None)).
Proof.
  intros Hh Hd. pose proof (set_ttl_bounds dur Hd) as Httl.
  rewrite (redis_SetBlock_positive now key dur r Hh) by (unfold Millisecond in *; lia).
  cbn [fst snd]. split_and!; [done|..]; intros t Ht;
    rewrite redis_IsBlocked by by apply set_server_healthy.
  - cbn [fst]. rewrite block_flag_set_block. unfold expired; simpl.
    rewrite (bool_decide_eq_false_2 (now + set_ttl dur < t))
      by (unfold Millisecond in *; lia).
    by rewrite bool_decide_eq_true_2 by eauto.
  - cbn [fst]. rewrite block_flag_set_block. unfold expired; simpl.
    rewrite (bool_decide_eq_true_2 (now + set_ttl dur < t)) by lia.
    by rewrite bool_decide_eq_false_2 by (intros [? ?]; done).
Qed.

Lemma block_expires_by_itself_witness :
  (SetBlock 0 "ip:A" (10 * Second) empty_redis).1 = None
  ∧ (∀ t, t <= 0 + 10 * Second - Millisecond →
       (IsBlocked t "ip:A" (SetBlock 0 "ip:A" (10 * Second) empty_redis).2).1 = (true, None))
  ∧ (∀ t, 0 + 10 * Second < t →
       (IsBlocked t "ip:A" (SetBlock 0 "ip:A" (10 * Second) empty_redis).2).1 = (false, None)).
Proof.
  apply (block_expires_by_itself 0 "ip:A" (10 * Second) empty_redis).
  - split; reflexivity.
  - unfold Millisecond, Second. lia.
Defined.

(** X2. A block set with a duration of zero, or with a negative duration
    other than -1, never expires on the Redis storage: [client.Set] sends no
    expiration for it, and [IsBlocked] answers true at every instant. *)
Theorem zero_duration_blocks_forever (now : Time) (key : string) (dur : Duration)
    (r : RedisStorage) :
  healthy r → dur <= 0 → dur ≠ -1 →
  (SetBlock now key dur r).1 = None
  ∧ ∀ t, (IsBlocked t key (SetBlock now key dur r).2).1 = (true, None).
Proof.
  intros Hh Hle Hne.
  rewrite (redis_SetBlock_no_expiry now key dur r Hh Hle Hne). cbn [fst snd].
  split; [done|]. intros t. rewrite redis_IsBlocked by by apply set_server_healthy.
  cbn [fst]. by rewrite block_flag_set_block.
Qed.

Lemma zero_duration_blocks_forever_witness :
  (SetBlock 0 "ip:A" 0 empty_redis).1 = None
  ∧ ∀ t, (IsBlocked t "ip:A" (SetBlock 0 "ip:A" 0 empty_redis).2).1 = (true, None).
Proof.
  apply (zero_duration_blocks_forever 0 "ip:A" 0 empty_redis).
  - split; reflexivity.
  - lia.
  - lia.
Defined.

(** X3. [SetBlock] overwrites the block the key had: on a healthy Redis
    storage, setting a block and then another one (of any duration but -1)
    leaves the storage as the second call alone would. *)
Theorem SetBlock_overwrites (t1 t2 : Time) (key : string) (d1 d2 : Duration)
    (r : RedisStorage) :
  healthy r → d2 ≠ -1 →
  SetBlock t2 key d2 (SetBlock t1 key d1 r).2 = SetBlock t2 key d2 r.
Proof.
  intros Hh Hne.
  destruct (redis_SetBlock t1 key d1 r Hh) as [w1 ->]. cbn [snd].
  set (r1 := set_server _ r). assert (Hh1 : healthy r1) by by apply set_server_healthy.
  destruct (decide (0 < d2)) as [Hpos|Hle].
  - rewrite (redis_SetBlock_positive t2 key d2 r1 Hh1 Hpos).
    rewrite (redis_SetBlock_positive t2 key d2 r Hh Hpos).
    unfold r1, set_server; simpl. by rewrite insert_insert_eq.
  - rewrite (redis_SetBlock_no_expiry t2 key d2 r1 Hh1) by (done || lia).
    rewrite (redis_SetBlock_no_expiry t2 key d2 r Hh) by (done || lia).
    unfold r1, set_server; simpl. by rewrite insert_insert_eq.
Qed.

Lemma SetBlock_overwrites_witness :
  SetBlock 5 "ip:A" Second (SetBlock 0 "ip:A" (10 * Second) empty_redis).2
  = SetBlock 5 "ip:A" Second empty_redis.
Proof.
  apply (SetBlock_overwrites 0 5 "ip:A" (10 * Second) Second empty_redis).
  - split; reflexivity.
  - discriminate.
Defined.

Lemma redis_Get (t : Time) (key : string) (r : RedisStorage) :
  healthy r →
  Get t key r =
    (match counter t key r with
     | None => (0, None)
     | Some e =>
       match int_of_rvalue (val e) with
       | Some count => (count, None)
       | None => (0, Some (Errorf "failed to parse rate limit count: "
                             (ErrNew "invalid syntax")))
       end
     end, r).
Proof.
  intros Hh. simpl. unfold RedisGet.
  rewrite (healthy_round_trip r _ Hh). unfold GET, counter. cbn [fst snd].
  destruct (live t ("rate_limit:" +:+ key) (server (client r))) as [e|]; cbn [fst snd].
  - rewrite storage_eta, set_server_id. by destruct (int_of_rvalue (val e)).
  - by rewrite storage_eta, set_server_id.
Qed.

Lemma RedisGet_server (t : Time) (key : string) (r : RedisStorage) :
  server (client (RedisGet t key r).2) = server (client r).
Proof.
  unfold RedisGet, round_trip, GET. destruct r as [[d o c]]; simpl.
  destruct c; simpl; [done|].
  destruct o as [|[] o]; simpl; try done;
    destruct (live t ("rate_limit:" +:+ key) d) as [e|]; simpl; try done;
    by destruct (int_of_rvalue (val e)).
Qed.

Lemma RedisIncrement_healthy (now : Time) (key : string) (w : Duration) (r : RedisStorage) :
  healthy r → healthy (RedisIncrement now key w r).2.
Proof.
  intros Hh. unfold RedisIncrement. rewrite (healthy_round_trip r _ Hh).
  destruct (INCR now _ (server (client r))) as [incr d1].
  destruct (EXPIRE now _ (formatSec w) d1) as [expire d2]. cbn [fst snd].
  destruct Hh as [Hc Ho].
  destruct (reply_err incr); [|destruct (reply_err expire)]; by split.
Qed.

(** What a successful [Increment] with a positive window leaves under the
    key: the count it returned, expiring after the whole seconds of the
    window. *)
Lemma RedisIncrement_stored_window (now : Time) (key : string) (w : Duration)
    (r r' : RedisStorage) (count : Z) :
  0 < w →
  RedisIncrement now key w r = ((count, None), r') →
  server (client r') !! ("rate_limit:" +:+ key)
  = Some (mkEntry (RInt count) (Some (now + formatSec w * Second))).
Proof.
  intros Hw. pose proof (formatSec_pos w Hw) as Hsecs.
  unfold RedisIncrement, round_trip. destruct r as [[d o c]]; simpl.
  set (ck := "rate_limit:" +:+ key).
  destruct c; simpl; [done|].
  assert (Hcmds : ∀ incr expire d',
    (let '(incr, d1) := INCR now ck d in
     let '(expire, d2) := EXPIRE now ck (formatSec w) d1 in (incr, expire, d2))
    = (incr, expire, d') →
    reply_err incr = None →
    d' !! ck = Some (mkEntry (RInt (reply_int incr)) (Some (now + formatSec w * Second)))).
  { intros incr expire d'. unfold INCR.
    destruct (live now ck d) as [e|] eqn:Hlive.
    - destruct (int_of_rvalue (val e)) as [n|];
        [|by destruct (EXPIRE now ck (formatSec w) d); intros [= <- _ _]].
      case_bool_decide;
        [by destruct (EXPIRE now ck (formatSec w) d); intros [= <- _ _]|].
      unfold EXPIRE. rewrite live_insert_eq.
      unfold live in Hlive. destruct (d !! ck) as [e'|]; [|done].
      destruct (expired now e') eqn:Hexp; [done|]. injection Hlive as ->.
      unfold expired in *; simpl. rewrite Hexp.
      rewrite bool_decide_eq_false_2 by lia.
      intros [= <- _ <-] _. by rewrite lookup_insert_eq.
    - unfold EXPIRE. rewrite live_insert_eq; simpl.
      rewrite bool_decide_eq_false_2 by lia.
      intros [= <- _ <-] _. by rewrite lookup_insert_eq. }
  destruct o as [|[] o]; simpl; [| done |].
  all: destruct (INCR now ck d) as [incr d1];
    destruct (EXPIRE now ck (formatSec w) d1) as [expire d2]; simpl;
    specialize (Hcmds incr expire d2 eq_refl);
    destruct (reply_err incr); [done|];
    destruct (reply_err expire); [done|];
    intros [= <- <-]; simpl; by apply Hcmds.
Qed.

(** X4. What [Increment] returned is what [Get] reads while the window
    lasts: on a healthy Redis storage, after an [Increment] with a positive
    window that returned [count], [Get] returns [count], without error and
    without changing the storage, at every instant up to the expiry, which
    is the whole seconds of the window after the increment. *)
Theorem Get_reads_the_count (now : Time) (key : string) (w : Duration)
    (r r' : RedisStorage) (count : Z) :
  healthy r → 0 < w →
  Increment now key w r = ((count, None), r') →
  ∀ t, t <= now + formatSec w * Second → Get t key r' = ((count, None), r').
Proof.
  intros Hh Hw Hinc t Ht.
  assert (Hh' : healthy r').
  { pose proof (RedisIncrement_healthy now key w r Hh) as Hh'.
    simpl in Hinc. by rewrite Hinc in Hh'. }
  apply (RedisIncrement_stored_window now key w r r' count Hw) in Hinc.
  rewrite (redis_Get t key r' Hh'). unfold counter, live. rewrite Hinc.
  unfold expired; simpl. by rewrite bool_decide_eq_false_2 by lia.
Qed.

Lemma Get_reads_the_count_witness :
  Get Second "ip:A" (Increment 0 "ip:A" Second empty_redis).2
  = ((1, None), (Increment 0 "ip:A" Second empty_redis).2).
Proof.
  apply (Get_reads_the_count 0 "ip:A" Second empty_redis
           (Increment 0 "ip:A" Second empty_redis).2 1).
  - split; reflexivity.
  - reflexivity.
  - reflexivity.
  - rewrite formatSec_Second. unfold Second. lia.
Defined.

(** X5. The count starts again after the window: on a healthy Redis
    storage, once the expiry of an [Increment] with a positive window has
    passed with no other increment, [Get] returns 0 and the next
    [Increment] returns 1. *)
Theorem count_restarts_after_window (now : Time) (key : string) (w : Duration)
    (r r' : RedisStorage) (count : Z) :
  healthy r → 0 < w →
  Increment now key w r = ((count, None), r') →
  ∀ t, now + formatSec w * Second < t →
    Get t key r' = ((0, None), r')
    ∧ ∀ w', (Increment t key w' r').1 = (1, None).
Proof.
  intros Hh Hw Hinc t Ht.
  assert (Hh' : healthy r').
  { pose proof (RedisIncrement_healthy now key w r Hh) as Hh'.
    simpl in Hinc. by rewrite Hinc in Hh'. }
  apply (RedisIncrement_stored_window now key w r r' count Hw) in Hinc.
  assert (Hgone : live t ("rate_limit:" +:+ key) (server (client r')) = None).
  { unfold live. rewrite Hinc. unfold expired; simpl.
    by rewrite bool_decide_eq_true_2 by lia. }
  split.
  - rewrite (redis_Get t key r' Hh'). unfold counter. by rewrite Hgone.
  - intros w'. simpl. unfold RedisIncrement.
    rewrite (healthy_round_trip r' _ Hh'). unfold INCR. rewrite Hgone.
    unfold EXPIRE. rewrite live_insert_eq. simpl.
    by case_bool_decide.
Qed.

Lemma count_restarts_after_window_witness :
  Get (Second + 1) "ip:A" (Increment 0 "ip:A" Second empty_redis).2
  = ((0, None), (Increment 0 "ip:A" Second empty_redis).2)
  ∧ ∀ w', (Increment (Second + 1) "ip:A" w'
             (Increment 0 "ip:A" Second empty_redis).2).1
          = (1, None).
Proof.
  apply (count_restarts_after_window 0 "ip:A" Second empty_redis
           (Increment 0 "ip:A" Second empty_redis).2 1).
  - split; reflexivity.
  - reflexivity.
  - reflexivity.
  - rewrite formatSec_Second. unfold Second. lia.
Defined.

(** X6. A window that is not positive keeps no count: on a healthy Redis
    storage an [Increment] with a window of zero or less still returns the
    incremented count, but the EXPIRE it sends deletes the key, so that
    [Get] returns 0 right away and every later [Increment] with such a
    window returns 1. *)
Theorem nonpositive_window_keeps_no_count (now : Time) (key : string) (w : Duration)
    (r : RedisStorage) (n : Z) :
  healthy r → holds_count now key r n → n ≠ max_int64 → w <= 0 →
  (Increment now key w r).1 = (n + 1, None)
  ∧ ∀ t, Get t key (Increment now key w r).2 = ((0, None), (Increment now key w r).2)
       ∧ ∀ w', w' <= 0 →
           (Increment t key w' (Increment now key w r).2).1 = (1, None).
Proof.
  intros Hh Hn Hmax Hw.
  assert (Hsecs : formatSec w <= 0).
  { unfold formatSec. rewrite (bool_decide_eq_false_2 (0 < w)) by lia. simpl.
    unfold Second. apply Z.quot_le_upper_bound; lia. }
  assert (Hh' : healthy (set_server (delete ("rate_limit:" +:+ key) (server (client r))) r))
    by by apply set_server_healthy.
  assert (Hinc : Increment now key w r
                 = ((n + 1, None),
                    set_server (delete ("rate_limit:" +:+ key) (server (client r))) r)).
  { simpl. unfold RedisIncrement. rewrite (healthy_round_trip r _ Hh).
    unfold holds_count, counter in Hn.
    set (ck := "rate_limit:" +:+ key) in *. set (d := server (client r)) in *.
    unfold INCR. destruct (live now ck d) as [e|] eqn:Hlive.
    - rewrite Hn; simpl. rewrite bool_decide_eq_false_2 by done.
      unfold EXPIRE. rewrite live_insert_eq. unfold live in Hlive.
      destruct (d !! ck) as [e'|]; [|done].
      destruct (expired now e') eqn:Hexp; [done|]. injection Hlive as ->.
      unfold expired in *; simpl. rewrite Hexp.
      rewrite bool_decide_eq_true_2 by done. simpl.
      by rewrite delete_insert_eq.
    - subst n. unfold EXPIRE. rewrite live_insert_eq; simpl.
      rewrite bool_decide_eq_true_2 by done. simpl.
      by rewrite delete_insert_eq. }
  rewrite Hinc in *. cbn [fst snd] in *. split; [done|]. intros t.
  assert (Hgone : ∀ t', counter t' key
                          (set_server (delete ("rate_limit:" +:+ key) (server (client r))) r)
                        = None).
  { intros t'. unfold counter, live; simpl. by rewrite lookup_delete_eq. }
  split.
  - rewrite (redis_Get t key _ Hh'). by rewrite Hgone.
  - intros w' Hw'. simpl. unfold RedisIncrement.
    rewrite (healthy_round_trip _ _ Hh'). unfold INCR.
    specialize (Hgone t). unfold counter in Hgone. rewrite Hgone.
    unfold EXPIRE. rewrite live_insert_eq. simpl. by case_bool_decide.
Qed.

Lemma nonpositive_window_keeps_no_count_witness :
  (Increment 0 "ip:A" 0 empty_redis).1 = (0 + 1, None)
  ∧ ∀ t, Get t "ip:A" (Increment 0 "ip:A" 0 empty_redis).2
         = ((0, None), (Increment 0 "ip:A" 0 empty_redis).2)
       ∧ ∀ w', w' <= 0 →
           (Increment t "ip:A" w' (Increment 0 "ip:A" 0 empty_redis).2).1 = (1, None).
Proof.
  apply (nonpositive_window_keeps_no_count 0 "ip:A" 0 empty_redis 0).
  - split; reflexivity.
  - reflexivity.
  - discriminate.
  - lia.
Defined.

(** X7. Counts and block flags live apart on the Redis storage, in any
    state of the connection: [SetBlock] changes no count and [Increment]
    changes no block flag, of the same key or of another, and the two reads
    [IsBlocked] and [Get] leave the whole keyspace as it was. *)
Theorem counts_and_blocks_apart (now t : Time) (key k : string) (r : RedisStorage) :
  (∀ dur, counter t k (SetBlock now key dur r).2 = counter t k r)
  ∧ (∀ w, block_flag t k (Increment now key w r).2 = block_flag t k r)
  ∧ server (client (IsBlocked now key r).2) = server (client r)
  ∧ server (client (Get now key r).2) = server (client r).
Proof.
  split_and!.
  - intros dur. unfold counter, live. simpl.
    rewrite RedisSetBlock_frame; [done|]. intros Heq. by simpl in Heq.
  - intros w. unfold block_flag, live. simpl.
    rewrite RedisIncrement_frame; [done|]. intros Heq. by simpl in Heq.
  - apply RedisIsBlocked_server.
  - apply RedisGet_server.
Qed.

(** A round trip on a closed client fails and changes nothing. *)
Lemma closed_round_trip {A : Type} (c : Client)
    (cmds : gmap string entry → A * gmap string entry) :
  closed c = true →
  round_trip c cmds = (inr (ErrNew "redis: client is closed"), c).
Proof. intros Hc. unfold round_trip. by rewrite Hc. Qed.

(** X8. Closing is final on the Redis storage: the first [Close] of an open
    client succeeds; after it a second [Close] returns an error, and every
    [CheckLimit] returns that the client is closed, as an error and with no
    result, without changing the storage. *)
Theorem closed_storage_fails (r : RedisStorage) :
  closed (client r) = false →
  (CloseLimiter r).1 = None
  ∧ (CloseLimiter (CloseLimiter r).2).1 = Some (ErrNew "redis: client is closed")
  ∧ ∀ (rl : RateLimiter) (now : Time) (ip token : string),
      CheckLimit rl now ip token (CloseLimiter r).2 =
        ((None, Some (Errorf "failed to check block status: "
                        (Errorf "failed to check block status: "
                           (ErrNew "redis: client is closed")))),
         (CloseLimiter r).2).
Proof.
  intros Hopen. unfold CloseLimiter. simpl. unfold RedisClose. rewrite Hopen. simpl.
  split_and!; [done|done|]. intros rl now ip token.
  destruct (getKeyAndLimit rl ip token) as [key limit] eqn:Hkey.
  apply (path_IsBlocked_fails rl now ip token key limit Hkey _ _ false).
  simpl. unfold RedisIsBlocked. by rewrite closed_round_trip.
Qed.

Lemma closed_storage_fails_witness :
  (CloseLimiter empty_redis).1 = None
  ∧ (CloseLimiter (CloseLimiter empty_redis).2).1 = Some (ErrNew "redis: client is closed")
  ∧ ∀ (rl : RateLimiter) (now : Time) (ip token : string),
      CheckLimit rl now ip token (CloseLimiter empty_redis).2 =
        ((None, Some (Errorf "failed to check block status: "
                        (Errorf "failed to check block status: "
                           (ErrNew "redis: client is closed")))),
         (CloseLimiter empty_redis).2).
Proof. apply (closed_storage_fails empty_redis). reflexivity. Defined.

(** * Further properties of the engine *)

(** X9. While the block of a key lasts, no call for the key counts: on a
    healthy Redis storage, for any number of calls made at instants at
    which the block flag has not expired, every call is rejected as
    blocked with nothing remaining, the storage receives one [IsBlocked]
    per call and nothing else, and it is left exactly as it was. *)
Theorem blocked_run_never_counts (rl : RateLimiter) (ip token key : string) (L : Z)
    (times : list Time) (r : RedisStorage) (e : entry) (log : list call) :
  getKeyAndLimit rl ip token = (key, L) →
  healthy r →
  server (client r) !! ("blocked:" +:+ key) = Some e →
  Forall (λ t, expired t e = false) times →
  CheckLimitSeq rl ip token times (mkRecorder r log) =
    (map (λ t, (Some {| Allowed := false; Remaining := 0;
                        ResetTime := t + blockDuration rl; Blocked := true |}, None)) times,
     mkRecorder r (log ++ map (λ _, CallIsBlocked key) times)).
Proof.
  intros Hkey Hh He. revert log.
  induction times as [|t times IH]; intros log Hlive.
  - simpl. by rewrite app_nil_r.
  - apply Forall_cons in Hlive as [Ht Hlive].
    assert (H1 : IsBlocked t key (mkRecorder r log)
                 = ((true, None), mkRecorder r (log ++ [CallIsBlocked key]))).
    { apply (recorded_IsBlocked t key (mkRecorder r log)). cbn [inner].
      rewrite (redis_IsBlocked t key r Hh). unfold block_flag, live. rewrite He, Ht.
      by rewrite bool_decide_eq_true_2 by eauto. }
    cbn [CheckLimitSeq map].
    rewrite (path_blocked rl t ip token key L Hkey _ _ H1).
    rewrite (IH (log ++ [CallIsBlocked key])%list Hlive).
    by rewrite <- app_assoc.
Qed.

Lemma blocked_run_never_counts_witness :
  CheckLimitSeq test_policy "A" "" [5; 6; 100] (mkRecorder blocked_redis []) =
    (map (λ t, (Some {| Allowed := false; Remaining := 0;
                        ResetTime := t + blockDuration test_policy; Blocked := true |},
                None)) [5; 6; 100],
     mkRecorder blocked_redis ([] ++ map (λ _, CallIsBlocked "ip:A") [5; 6; 100])).
Proof.
  apply (blocked_run_never_counts test_policy "A" "" "ip:A" 3 [5; 6; 100] blocked_redis
           (mkEntry (RStr "1") (Some 100)) []).
  - reflexivity.
  - split; reflexivity.
  - reflexivity.
  - repeat constructor.
Defined.

(** The call that exceeds the limit, on a healthy Redis storage and with a
    positive block duration: the result, and the storage it leaves. *)
Lemma redis_exceeding_call (rl : RateLimiter) (t : Time) (ip token key : string)
    (L n : Z) (r : RedisStorage) :
  getKeyAndLimit rl ip token = (key, L) →
  healthy r → block_flag t key r = None → holds_count t key r n →
  n ≠ max_int64 → L < n + 1 → 0 < blockDuration rl →
  CheckLimit rl t ip token r =
    ((Some {| Allowed := false; Remaining := 0;
              ResetTime := t + blockDuration rl; Blocked := true |}, None),
     set_server
       (<["blocked:" +:+ key :=
            mkEntry (RStr "1") (Some (t + set_ttl (blockDuration rl)))]>
          (<["rate_limit:" +:+ key := mkEntry (RInt (n + 1)) (Some (t + Second))]>
             (server (client r)))) r).
Proof.
  intros Hkey Hh Hnb Hn Hmax HL Hbd.
  pose proof (redis_IsBlocked t key r Hh) as H1. rewrite Hnb in H1.
  rewrite bool_decide_eq_false_2 in H1 by (intros [? ?]; done).
  pose proof (redis_Increment t key r n Hh Hn Hmax) as H2.
  set (r1 := set_server _ r) in H2.
  assert (Hh1 : healthy r1) by by apply set_server_healthy.
  pose proof (redis_SetBlock_positive t key (blockDuration rl) r1 Hh1 Hbd) as H3.
  by rewrite (path_exceeded rl t ip token key L Hkey _ _ _ _ _ H1 H2 ltac:(lia) H3).
Qed.

(** The first call on a fresh key, on a healthy Redis storage, when the
    limit is at least 1. *)
Lemma redis_first_call (rl : RateLimiter) (t : Time) (ip token key : string)
    (L : Z) (r : RedisStorage) :
  getKeyAndLimit rl ip token = (key, L) →
  healthy r → fresh t key r → 1 <= L → L <= max_int64 →
  (CheckLimit rl t ip token r).1 =
    (Some {| Allowed := true; Remaining := L - 1;
             ResetTime := t + Second; Blocked := false |}, None).
Proof.
  intros Hkey Hh [Hc Hb] HL1 HLmax.
  pose proof (redis_IsBlocked t key r Hh) as H1. rewrite Hb in H1.
  rewrite bool_decide_eq_false_2 in H1 by (intros [? ?]; done).
  assert (Hn : holds_count t key r 0) by (unfold holds_count; by rewrite Hc).
  pose proof (redis_Increment t key r 0 Hh Hn ltac:(done)) as H2.
  rewrite (path_allowed rl t ip token key L Hkey _ _ _ _ H1 H2) by (simpl; lia).
  cbn [fst]. do 3 f_equal.
  rewrite wrap64_in_range by (unfold in_int64, min_int64, max_int64 in *; lia).
  simpl. lia.
Qed.

(** X10. A key recovers after its block on the Redis storage: when a call
    exceeds the limit at instant [t] (healthy client, limit at least 1,
    positive block duration), it is rejected, and the first call made more
    than a block duration and more than a second later is allowed again,
    with limit - 1 remaining: both the block flag and the count have
    expired by themselves. *)
Theorem key_recovers_after_block (rl : RateLimiter) (t : Time) (ip token key : string)
    (L n : Z) (r : RedisStorage) :
  getKeyAndLimit rl ip token = (key, L) →
  healthy r → block_flag t key r = None → holds_count t key r n →
  1 <= L → L <= n → n < max_int64 → 0 < blockDuration rl →
  (CheckLimit rl t ip token r).1 =
    (Some {| Allowed := false; Remaining := 0;
             ResetTime := t + blockDuration rl; Blocked := true |}, None)
  ∧ ∀ t', t + Second < t' → t + blockDuration rl < t' →
      (CheckLimit rl t' ip token (CheckLimit rl t ip token r).2).1 =
        (Some {| Allowed := true; Remaining := L - 1;
                 ResetTime := t' + Second; Blocked := false |}, None).
Proof.
  intros Hkey Hh Hnb Hn HL1 HLn Hmax Hbd.
  rewrite (redis_exceeding_call rl t ip token key L n r Hkey Hh Hnb Hn) by lia.
  cbn [fst snd]. split; [done|]. intros t' Ht1 Ht2.
  apply (redis_first_call rl t' ip token key L _ Hkey);
    [by apply set_server_healthy| |done|lia].
  assert (Httl : t + set_ttl (blockDuration rl) < t').
  { destruct (decide (Millisecond <= blockDuration rl)) as [Hms|Hms].
    - pose proof (set_ttl_bounds _ Hms). lia.
    - unfold set_ttl, usePrecise, formatMs.
      rewrite (bool_decide_eq_true_2 (blockDuration rl < Second))
        by (unfold Second, Millisecond in *; lia).
      rewrite (bool_decide_eq_true_2 (0 < blockDuration rl)) by done.
      rewrite (bool_decide_eq_true_2 (blockDuration rl < Millisecond)) by lia.
      simpl. unfold Second, Millisecond in *. lia. }
  split.
  - rewrite counter_set_block, live_insert_eq. unfold expired; simpl.
    by rewrite bool_decide_eq_true_2 by lia.
  - rewrite block_flag_set_block. unfold expired; simpl.
    by rewrite bool_decide_eq_true_2 by lia.
Qed.

Lemma key_recovers_after_block_witness :
  let r := (CheckLimitSeq test_policy "A" "" [0; 1; 2] empty_redis).2 in
  (CheckLimit test_policy 3 "A" "" r).1 =
    (Some {| Allowed := false; Remaining := 0;
             ResetTime := 3 + blockDuration test_policy; Blocked := true |}, None)
  ∧ ∀ t', 3 + Second < t' → 3 + blockDuration test_policy < t' →
      (CheckLimit test_policy t' "A" "" (CheckLimit test_policy 3 "A" "" r).2).1 =
        (Some {| Allowed := true; Remaining := 3 - 1;
                 ResetTime := t' + Second; Blocked := false |}, None).
Proof.
  apply (key_recovers_after_block test_policy 3 "A" "" "ip:A" 3 3
           (CheckLimitSeq test_policy "A" "" [0; 1; 2] empty_redis).2).
  - reflexivity.
  - split; reflexivity.
  - reflexivity.
  - reflexivity.
  - lia.
  - lia.
  - reflexivity.
  - reflexivity.
Defined.

(** X11. The in-memory storage of the tests never forgets a count: it
    ignores the window, so a key whose count has reached the limit is
    rejected at every later call, whatever the instant and whether or not
    its block has run out, and the count only grows (the limit being a Go
    integer and the count below the largest one). *)
Theorem inmemory_never_recovers (rl : RateLimiter) (t : Time) (ip token key : string)
    (L n : Z) (i : InMemoryStorage) :
  getKeyAndLimit rl ip token = (key, L) →
  counts i !! key = Some n → min_int64 <= L → L <= n → n < max_int64 →
  (CheckLimit rl t ip token i).1 =
    (Some {| Allowed := false; Remaining := 0;
             ResetTime := t + blockDuration rl; Blocked := true |}, None)
  ∧ ∃ n', counts (CheckLimit rl t ip token i).2 !! key = Some n' ∧ n <= n'.
Proof.
  intros Hkey Hc Hmin HL Hmax.
  destruct (IsBlocked t key i) as [[b err] i1] eqn:H1.
  assert (err = None ∧ counts i1 = counts i) as [-> Hc1].
  { simpl in H1. destruct (blocked i !! key) as [u|]; [|by injection H1 as <- <- <-].
    case_bool_decide; by injection H1 as <- <- <-. }
  destruct b.
  - rewrite (path_blocked rl t ip token key L Hkey _ _ H1). cbn [fst snd].
    split; [done|]. exists n. rewrite Hc1. split; [done|lia].
  - assert (Hw : wrap64 (n + 1) = n + 1).
    { apply wrap64_in_range. unfold in_int64, min_int64, max_int64 in *. lia. }
    assert (H2 : Increment t key Second i1
                 = ((n + 1, None),
                    {| counts := <[key := n + 1]> (counts i1); blocked := blocked i1 |})).
    { cbv [Increment InMemoryStorage_Storage]. rewrite Hc1, Hc. simpl. by rewrite Hw. }
    erewrite (path_exceeded rl t ip token key L Hkey _ _ _ _ _ H1 H2 ltac:(lia));
      [|reflexivity].
    cbn [fst snd counts]. split; [done|]. exists (n + 1).
    rewrite lookup_insert_eq. split; [done|lia].
Qed.

Lemma inmemory_never_recovers_witness :
  let i := (CheckLimitSeq integration_policy "A" "" [0; 0; 0; 0] NewInMemoryStorage).2 in
  (CheckLimit integration_policy (3600 * Second) "A" "" i).1 =
    (Some {| Allowed := false; Remaining := 0;
             ResetTime := 3600 * Second + blockDuration integration_policy;
             Blocked := true |}, None)
  ∧ ∃ n', counts (CheckLimit integration_policy (3600 * Second) "A" "" i).2 !! "ip:A"
          = Some n' ∧ 4 <= n'.
Proof.
  apply (inmemory_never_recovers integration_policy (3600 * Second) "A" "" "ip:A" 3 4
           (CheckLimitSeq integration_policy "A" "" [0; 0; 0; 0] NewInMemoryStorage).2).
  - reflexivity.
  - reflexivity.
  - unfold min_int64. lia.
  - lia.
  - reflexivity.
Defined.

(** X12. On the in-memory storage a block holds exactly while the clock is
    before the instant of [SetBlock] plus the duration: [IsBlocked] answers
    true before that instant and false from it on.  A block of duration
    zero or less therefore blocks nothing at or after its own instant. *)
Theorem inmemory_block_window (now t : Time) (key : string) (dur : Duration)
    (i : InMemoryStorage) :
  (IsBlocked t key (SetBlock now key dur i).2).1 = (bool_decide (t < now + dur), None)
  ∧ (dur <= 0 → now <= t → (IsBlocked t key (SetBlock now key dur i).2).1 = (false, None)).
Proof.
  assert (H : (IsBlocked t key (SetBlock now key dur i).2).1
              = (bool_decide (t < now + dur), None)).
  { simpl. rewrite lookup_insert_eq. unfold Add. by case_bool_decide. }
  split; [done|]. intros Hd Ht. rewrite H.
  by rewrite bool_decide_eq_false_2 by lia.
Qed.

(** * Properties of the configuration *)

Lemma str_length_app (a b : string) :
  String.length (a +:+ b) = (String.length a + String.length b)%nat.
Proof. induction a as [|c a IH]; simpl; [done|by rewrite IH]. Qed.

Lemma str_take_app (p x : string) : str_take (String.length p) (p +:+ x) = p.
Proof. induction p as [|c p IH]; simpl; [by destruct x|by rewrite IH]. Qed.

Lemma str_drop_app (p x : string) : str_drop (String.length p) (p +:+ x) = x.
Proof. induction p as [|c p IH]; simpl; done. Qed.

Lemma str_take_drop (n : nat) (s : string) : str_take n s +:+ str_drop n s = s.
Proof.
  revert s. induction n as [|n IH]; intros s; [done|].
  destruct s as [|c s]; [done|].
  change (String c (str_take n s +:+ str_drop n s) = String c s). f_equal. apply IH.
Qed.

Lemma HasPrefix_app (p x : string) : HasPrefix (p +:+ x) p = true.
Proof.
  unfold HasPrefix. rewrite str_length_app, str_take_app.
  rewrite bool_decide_eq_true_2 by lia. by rewrite bool_decide_eq_true_2.
Qed.

Lemma HasSuffix_app (x suf : string) : HasSuffix (x +:+ suf) suf = true.
Proof.
  unfold HasSuffix. rewrite str_length_app.
  replace (String.length x + String.length suf - String.length suf)%nat
    with (String.length x) by lia.
  rewrite str_drop_app.
  rewrite bool_decide_eq_true_2 by lia. by rewrite bool_decide_eq_true_2.
Qed.

Lemma HasPrefix_true (s p : string) :
  HasPrefix s p = true → s = p +:+ str_drop (String.length p) s.
Proof.
  unfold HasPrefix. intros [_ Ht%bool_decide_eq_true_1]%andb_prop.
  pose proof (str_take_drop (String.length p) s) as H.
  by rewrite Ht in H.
Qed.

Lemma HasSuffix_true (s suf : string) :
  HasSuffix s suf = true →
  s = str_take (String.length s - String.length suf) s +:+ suf.
Proof.
  unfold HasSuffix. intros [_ Ht%bool_decide_eq_true_1]%andb_prop.
  pose proof (str_take_drop (String.length s - String.length suf) s) as H.
  by rewrite Ht in H.
Qed.

Lemma TrimPrefix_app (p x : string) : TrimPrefix (p +:+ x) p = x.
Proof. unfold TrimPrefix. by rewrite HasPrefix_app, str_drop_app. Qed.

Lemma TrimSuffix_app (x suf : string) : TrimSuffix (x +:+ suf) suf = x.
Proof.
  unfold TrimSuffix. rewrite HasSuffix_app, str_length_app.
  replace (String.length x + String.length suf - String.length suf)%nat
    with (String.length x) by lia.
  apply str_take_app.
Qed.

Lemma str_app_assoc (a b c : string) : (a +:+ b) +:+ c = a +:+ (b +:+ c).
Proof.
  induction a as [|x a IH]; [done|].
  change (String x ((a +:+ b) +:+ c) = String x (a +:+ (b +:+ c))). by f_equal.
Qed.

Lemma cut_at_Some (c : ascii) (s before after : string) :
  cut_at c s = Some (before, after) →
  s = before +:+ String c after ∧ cut_at c before = None.
Proof.
  revert before. induction s as [|a s IH]; intros before; simpl; [done|].
  case_bool_decide as Ha.
  - intros [= <- <-]. by subst.
  - destruct (cut_at c s) as [[b' a']|]; [|done].
    intros [= <- <-]. destruct (IH b' eq_refl) as [-> Hb]. simpl.
    rewrite bool_decide_eq_false_2 by done. by rewrite Hb.
Qed.

Lemma cut_at_app (c : ascii) (before after : string) :
  cut_at c before = None →
  cut_at c (before +:+ String c after) = Some (before, after).
Proof.
  induction before as [|a b IH]; simpl.
  - intros _. by rewrite bool_decide_eq_true_2.
  - case_bool_decide; [done|].
    destruct (cut_at c b) as [[? ?]|] eqn:Hb; [done|]. intros _. by rewrite IH.
Qed.

(** The two shapes of a variable name that has the prefix and the suffix of
    a token limit. *)
Lemma token_name_cases (key : string) :
  HasPrefix key "TOKEN_" = true → HasSuffix key "_LIMIT" = true →
  key = "TOKEN_" +:+ TrimSuffix (TrimPrefix key "TOKEN_") "_LIMIT" +:+ "_LIMIT"
  ∨ (key = "TOKEN_LIMIT" ∧ TrimSuffix (TrimPrefix key "TOKEN_") "_LIMIT" = "LIMIT").
Proof.
  intros Hp Hs. unfold TrimPrefix. rewrite Hp.
  apply HasPrefix_true in Hp. set (rest := str_drop _ key) in *.
  rewrite Hp in Hs |- *. clearbody rest. clear Hp.
  unfold TrimSuffix. destruct (HasSuffix rest "_LIMIT") eqn:Hrest.
  - left. f_equal. by apply HasSuffix_true in Hrest.
  - right. unfold HasSuffix in Hs, Hrest.
    apply andb_prop in Hs as [_ Hs%bool_decide_eq_true_1].
    destruct rest as [|c1 [|c2 [|c3 [|c4 [|c5 [|c6 rest]]]]]]; simpl in Hs; try done.
    + by injection Hs as -> -> -> -> ->.
    + exfalso. simpl in Hrest. rewrite Nat.sub_0_r in Hrest.
      change ("" +:+ ?x) with x in Hs.
      by rewrite bool_decide_eq_true_2 in Hrest.
Qed.

(** X13. Which entries of the environment define a token limit, and for
    which token: an entry registers [limit] for the token [name] exactly
    when it reads key=value with no "=" in the key, the value is a decimal
    integer that [Atoi] accepts as [limit], and the key is TOKEN_, the name,
    _LIMIT.  There is one more case: the key TOKEN_LIMIT, in which prefix
    and suffix overlap, registers a token called LIMIT. *)
Theorem token_entry_format (env name : string) (limit : Z) :
  config.token_of_entry env = Some (name, limit) ↔
  ∃ key value : string,
    env = key +:+ "=" +:+ value
    ∧ cut_at "=" key = None
    ∧ Atoi value = (limit, None)
    ∧ (key = "TOKEN_" +:+ name +:+ "_LIMIT"
       ∨ (key = "TOKEN_LIMIT" ∧ name = "LIMIT")).
Proof.
  unfold config.token_of_entry, SplitN_eq_2. split.
  - destruct (cut_at "=" env) as [[key value]|] eqn:Hcut; [|done].
    apply cut_at_Some in Hcut as [-> Hkey].
    destruct (HasPrefix key "TOKEN_") eqn:Hp; [|done].
    destruct (HasSuffix key "_LIMIT") eqn:Hs; [|done]. simpl.
    destruct (Atoi value) as [l [e|]] eqn:Ha; [done|].
    intros [= <- <-]. exists key, value. split_and!; [done|done|done|].
    apply token_name_cases; done.
  - intros (key & value & -> & Hkey & Ha & Hshape).
    change ("=" +:+ value) with (String "=" value).
    rewrite (cut_at_app "=" key value Hkey), Ha.
    destruct Hshape as [->|[-> ->]]; [|done].
    rewrite TrimPrefix_app, TrimSuffix_app, HasPrefix_app.
    by rewrite <- str_app_assoc, HasSuffix_app.
Qed.


(** The value [Load] gives to a numeric setting: the default when the
    variable is unset or empty, the number when it is one, and 0 when its
    first character is neither a digit nor a sign. *)
Lemma numeric_setting (environ : list string) (key defaultValue : string) :
  (Getenv environ key = "" →
     Atoi (config.getEnv environ key defaultValue) = Atoi defaultValue)
  ∧ (Getenv environ key ≠ "" →
     Atoi (config.getEnv environ key defaultValue) = Atoi (Getenv environ key))
  ∧ (∀ c rest, Getenv environ key = String c rest →
       digit_of c = None → c ≠ "+"%char → c ≠ "-"%char →
       Atoi (config.getEnv environ key defaultValue) = (0, Some ErrSyntax)).
Proof.
  unfold config.getEnv. split_and!.
  - intros ->. by rewrite bool_decide_eq_false_2 by (intros H; by apply H).
  - intros Hne. by rewrite bool_decide_eq_true_2.
  - intros c rest -> Hd Hp Hm. rewrite bool_decide_eq_true_2 by done.
    unfold Atoi. rewrite (bool_decide_eq_false_2 (c = "+"%char ∨ c = "-"%char)) by tauto.
    simpl. by rewrite Hd.
Qed.

(** X15. [Load] never fails, and its two limits are read as follows: an
    unset or empty DEFAULT_IP_LIMIT gives 10 and an unset or empty
    DEFAULT_TOKEN_LIMIT gives 100; a value [Atoi] accepts is the limit;
    and a value whose first character is neither a digit nor a sign is not
    reported but gives the limit 0. *)
Theorem Load_limits (environ : list string) :
  ∃ cfg : config.Config,
    config.Load environ = (Some cfg, None)
    ∧ (Getenv environ "DEFAULT_IP_LIMIT" = "" →
         config.DefaultIPLimit (config.RateLimit cfg) = 10)
    ∧ (Getenv environ "DEFAULT_TOKEN_LIMIT" = "" →
         config.DefaultTokenLimit (config.RateLimit cfg) = 100)
    ∧ (∀ n, Atoi (Getenv environ "DEFAULT_IP_LIMIT") = (n, None) →
         config.DefaultIPLimit (config.RateLimit cfg) = n)
    ∧ (∀ n, Atoi (Getenv environ "DEFAULT_TOKEN_LIMIT") = (n, None) →
         config.DefaultTokenLimit (config.RateLimit cfg) = n)
    ∧ (∀ c rest, Getenv environ "DEFAULT_IP_LIMIT" = String c rest →
         digit_of c = None → c ≠ "+"%char → c ≠ "-"%char →
         config.DefaultIPLimit (config.RateLimit cfg) = 0)
    ∧ (∀ c rest, Getenv environ "DEFAULT_TOKEN_LIMIT" = String c rest →
         digit_of c = None → c ≠ "+"%char → c ≠ "-"%char →
         config.DefaultTokenLimit (config.RateLimit cfg) = 0).
Proof.
  eexists. split; [reflexivity|]. cbn [config.RateLimit config.DefaultIPLimit
                                       config.DefaultTokenLimit].
  destruct (numeric_setting environ "DEFAULT_IP_LIMIT" "10") as (Hi1 & Hi2 & Hi3).
  destruct (numeric_setting environ "DEFAULT_TOKEN_LIMIT" "100") as (Ht1 & Ht2 & Ht3).
  split_and!.
  - intros H. by rewrite (Hi1 H).
  - intros H. by rewrite (Ht1 H).
  - intros n Hn. destruct (decide (Getenv environ "DEFAULT_IP_LIMIT" = "")) as [He|He].
    + by rewrite He in Hn.
    + by rewrite (Hi2 He), Hn.
  - intros n Hn. destruct (decide (Getenv environ "DEFAULT_TOKEN_LIMIT" = "")) as [He|He].
    + by rewrite He in Hn.
    + by rewrite (Ht2 He), Hn.
  - intros c rest H Hd Hp Hm. by rewrite (Hi3 c rest H Hd Hp Hm).
  - intros c rest H Hd Hp Hm. by rewrite (Ht3 c rest H Hd Hp Hm).
Qed.

(** X16. The block duration [Load] computes is the number of seconds of
    BLOCK_DURATION_SECONDS times one second, on 64 bits: 300 seconds when
    the variable is unset or empty; exactly the seconds asked for up to
    9223372036 of them; and a negative duration, by overflow, from
    9223372037 to 18446744073 seconds. *)
Theorem Load_block_duration (environ : list string) :
  ∃ cfg : config.Config,
    config.Load environ = (Some cfg, None)
    ∧ (Getenv environ "BLOCK_DURATION_SECONDS" = "" →
         config.BlockDuration (config.RateLimit cfg) = 300 * Second)
    ∧ (∀ s, Atoi (Getenv environ "BLOCK_DURATION_SECONDS") = (s, None) →
         (0 <= s <= 9223372036 →
            config.BlockDuration (config.RateLimit cfg) = s * Second)
         ∧ (9223372037 <= s <= 18446744073 →
            config.BlockDuration (config.RateLimit cfg) < 0)).
Proof.
  eexists. split; [reflexivity|]. cbn [config.RateLimit config.BlockDuration].
  destruct (numeric_setting environ "BLOCK_DURATION_SECONDS" "300") as (H1 & H2 & _).
  split.
  - intros H. by rewrite (H1 H).
  - intros s Hs.
    assert (He : Getenv environ "BLOCK_DURATION_SECONDS" ≠ "").
    { intros He. by rewrite He in Hs. }
    rewrite (H2 He), Hs. cbn [fst]. split; intros Hrange.
    + apply wrap64_in_range. unfold in_int64, min_int64, max_int64, Second. lia.
    + unfold wrap64, Second.
      replace ((s * 1000000000 + 2 ^ 63) `mod` 2 ^ 64)
        with (s * 1000000000 + 2 ^ 63 - 2 ^ 64); [lia|].
      apply Z.mod_unique with (q := 1); lia.
Qed.

(** * Properties of the middleware *)

(** What [CheckLimit] can return: an error and no result, or a result and
    no error, the result having nothing remaining when it is a rejection. *)
Lemma CheckLimit_cases {St : Type} `{!Storage St} (rl : RateLimiter) (now : Time)
    (ip token : string) (s : St) :
  (∃ e, (CheckLimit rl now ip token s).1 = (None, Some e))
  ∨ (∃ res, (CheckLimit rl now ip token s).1 = (Some res, None)
            ∧ (Allowed res = false → Remaining res = 0)).
Proof.
  unfold CheckLimit. destruct (getKeyAndLimit rl ip token) as [key limit].
  destruct (IsBlocked now key s) as [[b [e|]] s1]; simpl; [eauto|].
  destruct b; simpl; [right; eauto|].
  destruct (Increment now key Second s1) as [[c [e|]] s2]; simpl; [eauto|].
  case_bool_decide; simpl.
  - destruct (SetBlock now key (blockDuration rl) s2) as [[e|] s3]; simpl; [eauto|].
    right; eauto.
  - right. eexists. split; [done|]. done.
Qed.

Lemma Itoa_0 : middleware.Itoa 0 = "0".
Proof. reflexivity. Qed.



(** With a token the address plays no part in a check. *)
Lemma CheckLimit_token_ignores_ip {St : Type} `{!Storage St} (rl : RateLimiter)
    (now : Time) (ip ip' token : string) (s : St) :
  token ≠ "" → CheckLimit rl now ip token s = CheckLimit rl now ip' token s.
Proof.
  intros Ht. unfold CheckLimit.
  by rewrite (getKeyAndLimit_token rl ip token Ht), (getKeyAndLimit_token rl ip' token Ht).
Qed.





(** The environment of the README: three of its token variables, a
    variable that is not a number, and the two keys whose token names are
    not what they seem. *)
Example loadTokenConfig_readme :
  config.loadTokenConfig
    ["PATH=/bin"; "TOKEN_abc123_LIMIT=50"; "TOKEN_premium_user_LIMIT=200";
     "TOKEN_x_LIMIT=fifty"; "TOKEN_LIMIT=5"; "TOKEN__LIMIT=9"; "TOKEN_abc123_LIMIT=70"]
  = {["abc123" := 70; "premium_user" := 200; "LIMIT" := 5; "" := 9]}.
Proof. vm_compute. done. Qed.

Lemma token_entry_format_witness :
  config.token_of_entry "TOKEN_abc123_LIMIT=50" = Some ("abc123", 50)
  ∧ config.token_of_entry "TOKEN_LIMIT=5" = Some ("LIMIT", 5).
Proof.
  split.
  - apply (token_entry_format "TOKEN_abc123_LIMIT=50" "abc123" 50).
    exists "TOKEN_abc123_LIMIT", "50". split_and!; [reflexivity..|]. by left.
  - apply (token_entry_format "TOKEN_LIMIT=5" "LIMIT" 5).
    exists "TOKEN_LIMIT", "5". split_and!; [reflexivity..|]. by right.
Defined.

Lemma Load_limits_witness :
  ∃ cfg : config.Config,
    config.Load ["DEFAULT_IP_LIMIT=ten"; "DEFAULT_TOKEN_LIMIT=7"] = (Some cfg, None)
    ∧ config.DefaultIPLimit (config.RateLimit cfg) = 0
    ∧ config.DefaultTokenLimit (config.RateLimit cfg) = 7.
Proof.
  destruct (Load_limits ["DEFAULT_IP_LIMIT=ten"; "DEFAULT_TOKEN_LIMIT=7"])
    as (cfg & Hload & _ & _ & _ & Htoken & Hip & _).
  exists cfg. split_and!; [exact Hload| |].
  - apply (Hip "t"%char "en"); [reflexivity|reflexivity|discriminate|discriminate].
  - apply Htoken. reflexivity.
Defined.

Lemma Load_block_duration_witness :
  ∃ cfg : config.Config,
    config.Load ["BLOCK_DURATION_SECONDS=9223372037"] = (Some cfg, None)
    ∧ config.BlockDuration (config.RateLimit cfg) < 0.
Proof.
  destruct (Load_block_duration ["BLOCK_DURATION_SECONDS=9223372037"])
    as (cfg & Hload & _ & Hsecs).
  exists cfg. split; [exact Hload|].
  destruct (Hsecs 9223372037) as [_ Hneg]; [reflexivity|]. apply Hneg. lia.
Defined.
